(** * HDL_Preprocessor: the conditional-compilation scanner of HDL_Syntax

    A shallow embedding of [HDL_Preprocessor.preproc]
    (src/HDL_Preprocessor.py, lines 95-264) and the properties of its
    scanning loop, directive dispatch, include handling and region
    collection.

    Conventions of the embedding.
    - A Python [str] is a list of characters ([str := list ascii]); offsets
      are [nat], as produced by [match.start] / [match.end].
    - Every regular expression of the source is a hand-written matcher that
      returns exactly the groups and offsets the source reads from the
      [Match] object.
    - [self.defines], [self.conditionals], [self.head] and the printed
      diagnostics are one record, [shared], threaded through every call;
      the local variables of one [preproc] activation are the record
      [locals].
    - Python lists keep their order: [append] adds at the end, [l[-1]] is
      the last element, [del l[-1]] removes it.
    - The [while] loop and the recursive call for [`include] are driven by
      a fuel argument; an uncaught exception ([IndexError], or the
      [UnicodeDecodeError] of a [file.read()]) is a result of its own.
    - [os.path] and the file system are the record [os_env]; the list
      returned by [settings.incdirs()] is a parameter. *)

From Stdlib Require Import Ascii String List Arith Bool Lia.
Import ListNotations.

Set Implicit Arguments.

(* ================================================================= *)
(** ** Characters and strings *)

Definition str := list ascii.

Definition lit (x : string) : str := list_ascii_of_string x.

Definition dquote : ascii := "034"%char.
Definition newline : ascii := "010"%char.
Definition backslash : ascii := "\"%char.
Definition backtick : ascii := "`"%char.
Definition slash : ascii := "/"%char.
Definition star : ascii := "*"%char.

Fixpoint str_eqb (a b : str) : bool :=
  match a, b with
  | [], [] => true
  | x :: a', y :: b' => Ascii.eqb x y && str_eqb a' b'
  | _, _ => false
  end.

(** [name in self.defines] *)
Definition mem (name : str) (l : list str) : bool := existsb (str_eqb name) l.

(** [list.remove(name)]: drops the first occurrence. *)
Fixpoint remove_first (name : str) (l : list str) : list str :=
  match l with
  | [] => []
  | x :: l' => if str_eqb x name then l' else x :: remove_first name l'
  end.

(** [l[-1]]; [None] stands for the [IndexError] of an empty list. *)
Definition py_last (A : Type) (l : list A) : option A :=
  match l with
  | [] => None
  | x :: l' => Some (last l' x)
  end.

(** Character classes of the patterns. *)
Definition in_range (lo hi : nat) (c : ascii) : bool :=
  (lo <=? nat_of_ascii c) && (nat_of_ascii c <=? hi).

(** [[a-zA-Z_]] *)
Definition is_ident_start (c : ascii) : bool :=
  in_range 97 122 c || in_range 65 90 c || Ascii.eqb c "_".

(** [[a-zA-Z0-9_$]] *)
Definition is_ident_char (c : ascii) : bool :=
  in_range 97 122 c || in_range 65 90 c || in_range 48 57 c
  || Ascii.eqb c "_" || Ascii.eqb c "$".

(** [\s] of a [str] pattern, on the code points below 256:
    TAB..CR, FS..US, space, NEL and the no-break space. *)
Definition is_space (c : ascii) : bool :=
  in_range 9 13 c || in_range 28 32 c
  || (nat_of_ascii c =? 133) || (nat_of_ascii c =? 160).

(** [starts_with p l]: [l] begins with the literal [p]; the rest of [l]. *)
Fixpoint starts_with (p l : str) : option str :=
  match p, l with
  | [], _ => Some l
  | a :: p', b :: l' => if Ascii.eqb a b then starts_with p' l' else None
  | _ :: _, [] => None
  end.

(** Greedy [[class]*]: the longest prefix in the class, and the rest. *)
Fixpoint span (f : ascii -> bool) (l : str) : str * str :=
  match l with
  | c :: l' =>
      if f c then let (a, b) := span f l' in (c :: a, b) else ([], l)
  | [] => ([], [])
  end.

(** [[a-zA-Z_][a-zA-Z0-9_$]*] at the head of [l]. *)
Definition identifier (l : str) : option (str * str) :=
  match l with
  | c :: l' =>
      if is_ident_start c
      then let (a, b) := span is_ident_char l' in Some (c :: a, b)
      else None
  | [] => None
  end.

(* ================================================================= *)
(** ** The patterns of the scanner *)

Inductive marker := Backtick | Quote | LineComment | BlockComment.

(** The marker pattern of line 114 (a backtick, a double quote, two
    slashes, or a slash and a star), searched from [pos]:
    [(match.start(1), match.end(1), match.group(1))]. *)
Fixpoint find_marker (l : str) (i : nat) : option (nat * nat * marker) :=
  match l with
  | [] => None
  | c :: l' =>
      if Ascii.eqb c backtick then Some (i, i + 1, Backtick)
      else if Ascii.eqb c dquote then Some (i, i + 1, Quote)
      else if Ascii.eqb c slash then
        match l' with
        | d :: _ =>
            if Ascii.eqb d slash then Some (i, i + 2, LineComment)
            else if Ascii.eqb d star then Some (i, i + 2, BlockComment)
            else find_marker l' (S i)
        | [] => find_marker l' (S i)
        end
      else find_marker l' (S i)
  end.

Definition search_marker (content : str) (pos : nat) :=
  find_marker (skipn pos content) pos.

(** The newline pattern of line 122, searched from [from]:
    [match.end(1)]. *)
Fixpoint find_newline (l : str) (i : nat) : option nat :=
  match l with
  | [] => None
  | c :: l' => if Ascii.eqb c newline then Some (i + 1) else find_newline l' (S i)
  end.

Definition search_newline (content : str) (from : nat) :=
  find_newline (skipn from content) from.

(** The pattern of line 131 (a star and a slash), searched from [from]:
    [match.end(1)]. *)
Fixpoint find_block_end (l : str) (i : nat) : option nat :=
  match l with
  | [] => None
  | c :: l' =>
      match l' with
      | d :: _ =>
          if Ascii.eqb c star && Ascii.eqb d slash then Some (i + 2)
          else find_block_end l' (S i)
      | [] => None
      end
  end.

Definition search_block_end (content : str) (from : nat) :=
  find_block_end (skipn from content) from.

(** The pattern of line 140, a double quote under the negative
    look-behind for one backslash, searched from [from]: [match.end(1)].
    The look-behind reads the character before the candidate, also when
    that character lies before [from]. *)
Definition char_before (content : str) (i : nat) : option ascii :=
  match i with
  | 0 => None
  | S p => nth_error content p
  end.

Definition is_backslash (prev : option ascii) : bool :=
  match prev with
  | Some c => Ascii.eqb c backslash
  | None => false
  end.

Fixpoint find_quote (prev : option ascii) (l : str) (i : nat) : option nat :=
  match l with
  | [] => None
  | c :: l' =>
      if Ascii.eqb c dquote && negb (is_backslash prev) then Some (i + 1)
      else find_quote (Some c) l' (S i)
  end.

Definition search_quote (content : str) (from : nat) :=
  find_quote (char_before content from) (skipn from content) from.

(** The pattern of line 152 anchored at [start]: the keyword [`include],
    one space, a double quote, one or more characters other than a double
    quote (greedy), a double quote: [(match.group(2), match.end(2))]. *)
Definition match_include (content : str) (start : nat) : option (str * nat) :=
  match starts_with (lit "`include " ++ [dquote]) (skipn start content) with
  | Some rest =>
      let (path, rest') := span (fun c => negb (Ascii.eqb c dquote)) rest in
      match path, rest' with
      | _ :: _, _ :: _ => Some (path, start + 10 + length path)
      | _, _ => None
      end
  | None => None
  end.

(** The pattern of line 183 anchored at [start]: the keyword [`define],
    one space, an identifier: [(match.group(2), match.end(2))]. *)
Definition match_define (content : str) (start : nat) : option (str * nat) :=
  match starts_with (lit "`define ") (skipn start content) with
  | Some rest =>
      match identifier rest with
      | Some (name, _) => Some (name, start + 8 + length name)
      | None => None
      end
  | None => None
  end.

(** The patterns of lines 191, 206 and 247 anchored at [start]: the
    keyword ([`undef], [`ifdef], [`ifndef]), one or more [\s] (greedy), an
    identifier: [(match.group(2), match.end(2))]. *)
Definition match_keyword_name (kw : str) (content : str) (start : nat)
  : option (str * nat) :=
  match starts_with kw (skipn start content) with
  | Some rest =>
      let (ws, rest') := span is_space rest in
      match ws with
      | [] => None
      | _ :: _ =>
          match identifier rest' with
          | Some (name, _) =>
              Some (name, start + length kw + length ws + length name)
          | None => None
          end
      end
  | None => None
  end.

Definition match_undef := match_keyword_name (lit "`undef").
Definition match_ifdef := match_keyword_name (lit "`ifdef").
Definition match_ifndef := match_keyword_name (lit "`ifndef").

(** [(kw)[^a-zA-Z0-9_$]] for [`resetall], [`else], [`endif]: [match.end(1)].
    The pattern needs one more character after the keyword. *)
Definition match_keyword (kw : str) (content : str) (start : nat) : option nat :=
  match starts_with kw (skipn start content) with
  | Some (c :: _) => if is_ident_char c then None else Some (start + length kw)
  | _ => None
  end.

Definition match_resetall := match_keyword (lit "`resetall").
Definition match_else := match_keyword (lit "`else").
Definition match_endif := match_keyword (lit "`endif").

(* ================================================================= *)
(** ** State *)

(** One entry of [self.conditionals]: the dict with keys ['equal'] and
    ['exclude']. *)
Module Cond.
Record t := mk { equal : bool; exclude : bool }.
End Cond.

(** [sublime.Region(a, b)] *)
Definition region := (nat * nat)%type.

(** The messages [preproc] prints. *)
Inductive diag :=
| LineCommentNotEnded
| BlockCommentNotEnded
| StringNotEnded
| CantOpen (file_name : str).

(** The attributes of [self] that [preproc] reads and writes, and the
    printed output. *)
Record shared := mkShared {
  defines : list str;
  conditionals : list Cond.t;
  head : list str;
  stdout : list diag
}.

(** The local variables of one activation of [preproc]. *)
Record locals := mkLocals {
  pos : nat;
  exclude : bool;
  exclude_pos_start : nat;
  exclude_pos_end : nat;
  regions : list region
}.

Definition init_locals : locals := mkLocals 0 false 0 0 [].

Definition with_pos (p : nat) (l : locals) : locals :=
  mkLocals p (exclude l) (exclude_pos_start l) (exclude_pos_end l) (regions l).

Definition with_exclude (b : bool) (l : locals) : locals :=
  mkLocals (pos l) b (exclude_pos_start l) (exclude_pos_end l) (regions l).

(** [exclude = True; exclude_pos_start = s] *)
Definition begin_exclusion (s : nat) (l : locals) : locals :=
  mkLocals (pos l) true s (exclude_pos_end l) (regions l).

(** [exclude = False; exclude_pos_end = e;
    regions.append(sublime.Region(exclude_pos_start, exclude_pos_end))] *)
Definition end_exclusion (e : nat) (l : locals) : locals :=
  mkLocals (pos l) false (exclude_pos_start l) e
           (regions l ++ [(exclude_pos_start l, e)]).

Definition with_defines (d : list str) (s : shared) : shared :=
  mkShared d (conditionals s) (head s) (stdout s).

Definition with_conditionals (c : list Cond.t) (s : shared) : shared :=
  mkShared (defines s) c (head s) (stdout s).

Definition with_head (h : list str) (s : shared) : shared :=
  mkShared (defines s) (conditionals s) h (stdout s).

Definition print (d : diag) (s : shared) : shared :=
  mkShared (defines s) (conditionals s) (head s) (stdout s ++ [d]).

(** [l[-1] = x] on a non-empty list. *)
Definition set_last (A : Type) (x : A) (l : list A) : list A :=
  removelast l ++ [x].

(* ================================================================= *)
(** ** Results *)

Inductive result (A : Type) :=
| Ok (a : A)
| IndexError
| OutOfFuel
| UnicodeDecodeError.

Arguments IndexError {A}.
Arguments OutOfFuel {A}.
Arguments UnicodeDecodeError {A}.

Definition bind (A B : Type) (r : result A) (k : A -> result B) : result B :=
  match r with
  | Ok a => k a
  | IndexError => IndexError
  | OutOfFuel => OutOfFuel
  | UnicodeDecodeError => UnicodeDecodeError
  end.

Notation "x <- r ;; k" := (bind r (fun x => k))
  (at level 61, r at next level, right associativity).

Definition fmap (A B : Type) (f : A -> B) (r : result A) : result B :=
  x <- r ;; Ok (f x).

(* ================================================================= *)
(** ** Directives *)

(** What the chain of [pattern.match(content, match_start)] attempts of
    lines 150-257 finds, with the groups and offsets that are read. *)
Inductive directive :=
| Include (path : str) (end2 : nat)
| Define (name : str) (end2 : nat)
| Undef (name : str) (end2 : nat)
| Resetall (end1 : nat)
| Ifdef (name : str) (start1 end2 : nat)
| Else (start1 end1 : nat)
| Endif (end1 : nat)
| Ifndef (name : str) (start1 end2 : nat)
| Passthrough.

(** The order of the attempts: include, define, undef, resetall, ifdef,
    else, endif, ifndef; the first pattern that matches wins. *)
Definition recognise (content : str) (match_start : nat) : directive :=
  match match_include content match_start with
  | Some (path, e) => Include path e
  | None =>
  match match_define content match_start with
  | Some (name, e) => Define name e
  | None =>
  match match_undef content match_start with
  | Some (name, e) => Undef name e
  | None =>
  match match_resetall content match_start with
  | Some e => Resetall e
  | None =>
  match match_ifdef content match_start with
  | Some (name, e) => Ifdef name match_start e
  | None =>
  match match_else content match_start with
  | Some e => Else match_start e
  | None =>
  match match_endif content match_start with
  | Some e => Endif e
  | None =>
  match match_ifndef content match_start with
  | Some (name, e) => Ifndef name match_start e
  | None => Passthrough
  end end end end end end end end.

(* ================================================================= *)
(** ** The environment: [os.path], the file system, the settings *)

(** What [open(file_name, 'r')] followed by [file.read()] does: there is
    no such file; [open] raises [OSError]; [read] raises [OSError];
    [read] raises [UnicodeDecodeError] (a [ValueError], not an [OSError]);
    [read] returns the text. *)
Inductive file_status :=
| NotFile
| OpenError
| ReadError
| DecodeError
| Content (include_content : str).

Record os_env := mkOs {
  os_path_join : str -> str -> str;
  os_path_normpath : str -> str;
  os_path_split_0 : str -> str;
  fs : str -> file_status
}.

Definition os_path_isfile (os : os_env) (file_name : str) : bool :=
  match fs os file_name with
  | NotFile => false
  | _ => true
  end.

Section Preproc.

Variable os : os_env.
Variable incdirs : list str.

Section Dispatch.

(** The recursive call [self.preproc(include_content)], whose returned
    regions are dropped. *)
Variable rec : str -> shared -> result shared.

(** Lines 158-165 and 171-178: the [try] block of an include.  Only
    [OSError] is caught; the [UnicodeDecodeError] of [file.read()] leaves
    the [try] and every activation above it. *)
Definition include_file (file_name : str) (sh : shared) : result shared :=
  match fs os file_name with
  | NotFile | OpenError => Ok (print (CantOpen file_name) sh)
  | ReadError =>
      Ok (print (CantOpen file_name)
            (with_head (head sh ++ [os_path_split_0 os file_name]) sh))
  | DecodeError => UnicodeDecodeError
  | Content include_content =>
      sh' <- rec include_content
               (with_head (head sh ++ [os_path_split_0 os file_name]) sh) ;;
      match head sh' with
      | [] => IndexError
      | _ :: _ => Ok (with_head (removelast (head sh')) sh')
      end
  end.

(** Lines 167-179: [for incdir in incdirs: ... break]. *)
Fixpoint include_incdirs (path : str) (dirs : list str) (sh : shared)
  : result shared :=
  match dirs with
  | [] => Ok sh
  | incdir :: dirs' =>
      let file_name := os_path_normpath os (os_path_join os incdir path) in
      if os_path_isfile os file_name then include_file file_name sh
      else include_incdirs path dirs' sh
  end.

(** The body run for the directive that matched (lines 154-259). *)
Definition exec (d : directive) (match_end : nat)
           (sh : shared) (loc : locals) : result (shared * locals) :=
  match d with
  | Include path end2 =>
      match py_last (head sh) with
      | None => IndexError
      | Some h =>
          let file_name := os_path_normpath os (os_path_join os h path) in
          sh' <- (if os_path_isfile os file_name
                  then include_file file_name sh
                  else include_incdirs path incdirs sh) ;;
          Ok (sh', with_pos (end2 + 1) loc)
      end
  | Define name end2 =>
      if negb (mem name (defines sh))
      then Ok (with_defines (defines sh ++ [name]) sh, with_pos end2 loc)
      else Ok (sh, loc)
  | Undef name end2 =>
      if mem name (defines sh)
      then Ok (with_defines (remove_first name (defines sh)) sh,
               with_pos end2 loc)
      else Ok (sh, loc)
  | Resetall end1 => Ok (with_defines [] sh, with_pos end1 loc)
  | Ifdef name start1 end2 =>
      let frame :=
        Cond.mk (mem name (defines sh))
                (negb (exclude loc) && negb (mem name (defines sh))) in
      let sh' := with_conditionals (conditionals sh ++ [frame]) sh in
      if negb (exclude loc) && negb (mem name (defines sh))
      then Ok (sh', with_pos end2 (begin_exclusion start1 loc))
      else Ok (sh', with_pos end2 loc)
  | Else start1 end1 =>
      match py_last (conditionals sh) with
      | None => IndexError
      | Some top =>
          if negb (exclude loc) then
            Ok (with_conditionals
                  (set_last (Cond.mk true true) (conditionals sh)) sh,
                with_pos end1 (begin_exclusion end1 loc))
          else if Cond.exclude top then
            Ok (with_conditionals
                  (set_last (Cond.mk (negb (Cond.equal top)) false)
                            (conditionals sh)) sh,
                with_pos end1 (end_exclusion start1 loc))
          else Ok (sh, with_pos end1 loc)
      end
  | Endif end1 =>
      loc' <- (if exclude loc then
                 match py_last (conditionals sh) with
                 | None => IndexError
                 | Some top =>
                     if Cond.exclude top then Ok (end_exclusion end1 loc)
                     else Ok loc
                 end
               else Ok loc) ;;
      match conditionals sh with
      | [] => IndexError
      | _ :: _ =>
          Ok (with_conditionals (removelast (conditionals sh)) sh,
              with_pos end1 loc')
      end
  | Ifndef name start1 end2 =>
      let frame :=
        Cond.mk (negb (mem name (defines sh)))
                (negb (exclude loc) && mem name (defines sh)) in
      let sh' := with_conditionals (conditionals sh ++ [frame]) sh in
      if negb (exclude loc) && mem name (defines sh)
      then Ok (sh', with_pos end2 (begin_exclusion start1 loc))
      else Ok (sh', with_pos end2 loc)
  | Passthrough => Ok (sh, with_pos match_end loc)
  end.

(** One iteration of the [while] loop (lines 114-263). *)
Definition step (content : str) (sh : shared) (loc : locals)
  : result (shared * locals) :=
  match search_marker content (pos loc) with
  | Some (match_start, match_end, match_x) =>
      match match_x with
      | LineComment =>
          match search_newline content match_end with
          | Some e => Ok (sh, with_pos e loc)
          | None => Ok (print LineCommentNotEnded sh,
                        with_pos (length content) loc)
          end
      | BlockComment =>
          match search_block_end content match_end with
          | Some e => Ok (sh, with_pos e loc)
          | None => Ok (print BlockCommentNotEnded sh,
                        with_pos (length content) loc)
          end
      | Quote =>
          match search_quote content match_end with
          | Some e => Ok (sh, with_pos e loc)
          | None => Ok (print StringNotEnded sh,
                        with_pos (length content) loc)
          end
      | Backtick => exec (recognise content match_start) match_end sh loc
      end
  | None => Ok (sh, with_pos (length content) loc)
  end.

End Dispatch.

(** [while pos < len(content): ...], and the nested activation that an
    include starts with fresh locals on the same shared state. *)
Fixpoint loop (fuel : nat) (content : str) (sh : shared) (loc : locals)
         {struct fuel} : result (shared * locals) :=
  if pos loc <? length content then
    match fuel with
    | 0 => OutOfFuel
    | S fuel' =>
        r <- step (fun include_content s =>
                     fmap fst (loop fuel' include_content s init_locals))
                  content sh loc ;;
        loop fuel' content (fst r) (snd r)
    end
  else Ok (sh, loc).

(** [preproc(self, content)]: the returned regions and the state of
    [self] afterwards. *)
Definition preproc (fuel : nat) (content : str) (sh : shared)
  : result (list region * shared) :=
  r <- loop fuel content sh init_locals ;;
  Ok (regions (snd r), fst r).

(** The nested activation as [include_file] sees it. *)
Definition nested (fuel : nat) (include_content : str) (sh : shared)
  : result shared :=
  fmap fst (loop fuel include_content sh init_locals).

(** [track_modifications], lines 82-89: a run on the buffer of a file in
    directory [dir]. *)
Definition run (fuel : nat) (dir : str) (content : str)
  : result (list region * shared) :=
  preproc fuel content (mkShared [] [] [dir] []).

End Preproc.

(* ================================================================= *)
(** ** The buffer as the loop reads it *)

(** What the iteration at [pos] dispatches: the directive recognised at
    the next backtick, with the [match_end] of that backtick; a comment or
    a string that is closed is text passed over up to its end [e]
    ([Passthrough], with [e] in the place of [match_end]).  [None] when no
    marker is left or the comment or string is not ended: both set [pos]
    to the length of the buffer. *)
Definition next_dispatch (content : str) (pos : nat)
  : option (nat * directive) :=
  match search_marker content pos with
  | Some (match_start, match_end, match_x) =>
      match match_x with
      | LineComment =>
          option_map (fun e => (e, Passthrough))
                     (search_newline content match_end)
      | BlockComment =>
          option_map (fun e => (e, Passthrough))
                     (search_block_end content match_end)
      | Quote =>
          option_map (fun e => (e, Passthrough))
                     (search_quote content match_end)
      | Backtick => Some (match_end, recognise content match_start)
      end
  | None => None
  end.

(** The [pos] a dispatched directive sets (lines 180, 188, 196, 203, 216,
    233, 244, 257, 259). *)
Definition after (ev : nat * directive) : nat :=
  match snd ev with
  | Include _ e => e + 1
  | Define _ e | Undef _ e | Resetall e | Endif e => e
  | Ifdef _ _ e | Ifndef _ _ e | Else _ e => e
  | Passthrough => fst ev
  end.

(** The directives of the buffer from [pos] on, in the order the loop
    dispatches them when each one is passed; at most [n] of them. *)
Fixpoint scan (n : nat) (content : str) (pos : nat)
  : list (nat * directive) :=
  match n with
  | 0 => []
  | S n' =>
      if pos <? length content then
        match next_dispatch content pos with
        | Some ev => ev :: scan n' content (after ev)
        | None => []
        end
      else []
  end.





(** The directives that do not look at the conditional state. *)
Definition unconditional (d : directive) : bool :=
  match d with
  | Include _ _ | Define _ _ | Undef _ _ | Resetall _ => true
  | _ => false
  end.

(* ================================================================= *)
(** ** Vocabulary of the properties *)

(** [occurs p l]: the literal [p] is a substring of [l]. *)
Fixpoint occurs (p l : str) : bool :=
  match starts_with p l with
  | Some _ => true
  | None =>
      match l with
      | [] => false
      | _ :: l' => occurs p l'
      end
  end.

(** No backtick, no double quote, no two slashes, no slash and star. *)
Definition marker_free (content : str) : bool :=
  negb (occurs [backtick] content) && negb (occurs [dquote] content)
  && negb (occurs [slash; slash] content)
  && negb (occurs [slash; star] content).

(** Regions in document order: each starts at or after [lo] and the end
    of the one before, and ends at or after its start. *)
Fixpoint ascending (lo : nat) (rs : list region) : Prop :=
  match rs with
  | [] => True
  | (s, e) :: rs' => lo <= s /\ s <= e /\ ascending e rs'
  end.

(** The invariant of the loop on the locals of one activation. *)
Definition inv (content : str) (loc : locals) : Prop :=
  pos loc <= length content
  /\ ascending 0 (regions loc)
  /\ (forall r, In r (regions loc) ->
        snd r <= if exclude loc then exclude_pos_start loc else pos loc)
  /\ (exclude loc = true -> exclude_pos_start loc <= pos loc).

(** The offsets a recognised directive carries lie in [content], after
    the backtick at [match_start]. *)
Definition directive_within (content : str) (match_start : nat)
           (d : directive) : Prop :=
  match d with
  | Include _ e => match_start < e /\ e + 1 <= length content
  | Define _ e | Undef _ e | Resetall e | Endif e =>
      match_start < e /\ e <= length content
  | Ifdef _ s e | Ifndef _ s e | Else s e =>
      s = match_start /\ match_start < e /\ e <= length content
  | Passthrough => True
  end.

(** The number of backslashes right before offset [i]. *)
Fixpoint leading_backslashes (l : str) : nat :=
  match l with
  | c :: l' => if Ascii.eqb c backslash then S (leading_backslashes l') else 0
  | [] => 0
  end.

Definition backslashes_before (content : str) (i : nat) : nat :=
  leading_backslashes (rev (firstn i content)).

(** A double quote at offset [i] that no backslash precedes. *)
Definition closes (content : str) (i : nat) : Prop :=
  nth_error content i = Some dquote /\ backslashes_before content i = 0.

(** The string rule in the words of the specification: the string ends at
    the first double quote preceded by an even number of backslashes. *)
Fixpoint spec_find_quote (content : str) (l : str) (i : nat) : option nat :=
  match l with
  | [] => None
  | c :: l' =>
      if Ascii.eqb c dquote && Nat.even (backslashes_before content i)
      then Some (i + 1)
      else spec_find_quote content l' (S i)
  end.

Definition spec_search_quote (content : str) (from : nat) : option nat :=
  spec_find_quote content (skipn from content) from.

(** Where an include is looked for: the directory on top of [self.head],
    then the configured directories in order; the first existing file. *)
Definition candidates (os : os_env) (incdirs : list str) (h path : str)
  : list str :=
  map (fun d => os_path_normpath os (os_path_join os d path)) (h :: incdirs).

Definition located (os : os_env) (incdirs : list str) (h path : str)
  : option str :=
  find (os_path_isfile os) (candidates os incdirs h path).

(* ================================================================= *)
(** ** A small file system for the examples *)

(** The path up to its last slash. *)
Fixpoint dirname_rev (r : str) : str :=
  match r with
  | [] => []
  | c :: r' => if Ascii.eqb c slash then r' else dirname_rev r'
  end.

Definition dirname (p : str) : str := rev (dirname_rev (rev p)).

Definition demo_join (d p : str) : str := d ++ [slash] ++ p.

Definition nl : str := [newline].
Definition quoted (p : str) : str := [dquote] ++ p ++ [dquote].

(** [src/defs.vh] defines [X] and holds an excluded block of its own;
    [lib/common.vh] defines [LIB]; [src/locked.vh] cannot be opened;
    [src/broken.vh] opens and fails while it is read; [src/latin.vh]
    opens and cannot be decoded; [src/else.vh] holds an [`else] alone. *)
Definition demo_fs (file_name : str) : file_status :=
  if str_eqb file_name (lit "src/defs.vh") then
    Content (lit "`define X" ++ nl ++ lit "`ifdef NOPE" ++ nl
             ++ lit "hidden" ++ nl ++ lit "`endif" ++ nl)
  else if str_eqb file_name (lit "lib/common.vh") then
    Content (lit "`define LIB" ++ nl)
  else if str_eqb file_name (lit "src/locked.vh") then OpenError
  else if str_eqb file_name (lit "src/broken.vh") then ReadError
  else if str_eqb file_name (lit "src/latin.vh") then DecodeError
  else if str_eqb file_name (lit "src/else.vh") then Content (lit "`else ")
  else NotFile.

Definition demo_os : os_env := mkOs demo_join (fun p => p) dirname demo_fs.

Definition demo_incdirs : list str := [lit "lib"].

Definition demo_shared : shared := mkShared [] [] [lit "src"] [].

(** A nested activation that is never reached. *)
Definition no_rec : str -> shared -> result shared := fun _ _ => OutOfFuel.

(* ================================================================= *)
(** ** [HDL_Preprocessor_settings.incdirs] *)

(** Lines 308-324.  The value stored under ['incdirs'] is either a list of
    Python values or anything else; an element of the list is a [value],
    of which the code uses three things: [type(path) == str] (and then the
    string), [==] as [list.remove] applies it, and [os.path.isdir]. *)
Inductive settings_msg (value : Type) :=
| PathRemoved (path : value)
| IncdirsDefault.

Arguments IncdirsDefault {value}.

Section Settings.

Variable value : Type.
Variable as_str : value -> option str.
Variable py_eq : value -> value -> bool.
Variable os_path_isdir : str -> bool.

(** [type(path) != str or not os.path.isdir(path)], negated. *)
Definition path_ok (path : value) : bool :=
  match as_str path with
  | Some s => os_path_isdir s
  | None => false
  end.

(** [setting.remove(path)]: drops the first item equal to [path];
    [None] stands for the [ValueError] when there is none. *)
Fixpoint list_remove (path : value) (setting : list value)
  : option (list value) :=
  match setting with
  | [] => None
  | item :: setting' =>
      if py_eq item path then Some setting'
      else option_map (cons item) (list_remove path setting')
  end.

(** [for path in reversed(copy): ...] on the list [setting] that is
    changed in place, with the messages printed so far. *)
Fixpoint incdirs_loop (todo : list value) (setting : list value)
         (out : list (settings_msg value))
  : option (list value * list (settings_msg value)) :=
  match todo with
  | [] => Some (setting, out)
  | path :: todo' =>
      if path_ok path then incdirs_loop todo' setting out
      else
        match list_remove path setting with
        | None => None
        | Some setting' =>
            incdirs_loop todo' setting' (out ++ [PathRemoved path])
        end
  end.

(** [incdirs(self)]: the argument is [self.settings.get('incdirs')],
    [None] when it is not a list; the result is the returned list (the
    list object of the settings, after the removals) and what was
    printed. *)
Definition settings_incdirs (setting : option (list value))
  : option (list value * list (settings_msg value)) :=
  match setting with
  | Some l => incdirs_loop (rev l) l []
  | None => Some ([], [IncdirsDefault])
  end.

(** The number of items of [l] equal to [x]. *)
Definition count_eq (x : value) (l : list value) : nat :=
  length (filter (fun item => py_eq item x) l).

End Settings.

(** Values for the examples: strings and numbers, equal when they are
    the same. *)
Inductive demo_value :=
| DStr (s : str)
| DNum (n : nat).

Definition demo_as_str (v : demo_value) : option str :=
  match v with
  | DStr s => Some s
  | DNum _ => None
  end.

Definition demo_py_eq (a b : demo_value) : bool :=
  match a, b with
  | DStr s, DStr t => str_eqb s t
  | DNum n, DNum m => Nat.eqb n m
  | _, _ => false
  end.

Definition demo_isdir (s : str) : bool :=
  str_eqb s (lit "lib") || str_eqb s (lit "rtl").

(* ================================================================= *)
(** ** More vocabulary *)

(** The frames of the stack whose ['exclude'] entry is set. *)
Definition owners (c : list Cond.t) : list Cond.t := filter Cond.exclude c.

(** One frame owns the exclusion while the scan excludes, none does
    otherwise. *)
Definition owner_inv (sh : shared) (loc : locals) : Prop :=
  length (owners (conditionals sh)) = if exclude loc then 1 else 0.

(** The three messages about a construct that reaches the end of the
    buffer. *)
Definition not_ended (d : diag) : bool :=
  match d with
  | LineCommentNotEnded | BlockCommentNotEnded | StringNotEnded => true
  | CantOpen _ => false
  end.

(** An identifier and nothing else. *)
Definition valid_name (name : str) : bool :=
  match name with
  | c :: name' => is_ident_start c && forallb is_ident_char name'
  | [] => false
  end.

(** Two shared states that differ at most in the ['equal'] entries of
    their frames. *)
Definition same_but_equal (a b : shared) : Prop :=
  defines a = defines b
  /\ map Cond.exclude (conditionals a) = map Cond.exclude (conditionals b)
  /\ head a = head b
  /\ stdout a = stdout b.

(** The same for two results. *)
Definition result_same_but_equal (A : Type)
           (proj : A -> shared) (rest : A -> A -> Prop)
           (x y : result A) : Prop :=
  match x, y with
  | Ok a, Ok b => same_but_equal (proj a) (proj b) /\ rest a b
  | IndexError, IndexError => True
  | OutOfFuel, OutOfFuel => True
  | UnicodeDecodeError, UnicodeDecodeError => True
  | _, _ => False
  end.

(** Results of a nested activation, and of an iteration with its locals. *)
Definition rel_shared : result shared -> result shared -> Prop :=
  result_same_but_equal (fun s => s) (fun _ _ => True).

Definition rel_state
  : result (shared * locals) -> result (shared * locals) -> Prop :=
  result_same_but_equal fst (fun p q => snd p = snd q).

(** The marker pattern anchored at offset [j]: which marker, if any,
    starts exactly there. *)
Definition marker_at (content : str) (j : nat) : option marker :=
  match skipn j content with
  | c :: rest =>
      if Ascii.eqb c backtick then Some Backtick
      else if Ascii.eqb c dquote then Some Quote
      else if Ascii.eqb c slash then
        match rest with
        | d :: _ =>
            if Ascii.eqb d slash then Some LineComment
            else if Ascii.eqb d star then Some BlockComment
            else None
        | [] => None
        end
      else None
  | [] => None
  end.

Definition marker_width (k : marker) : nat :=
  match k with
  | Backtick | Quote => 1
  | LineComment | BlockComment => 2
  end.

(** A star and a slash at offsets [j] and [j + 1]. *)
Definition block_end_at (content : str) (j : nat) : bool :=
  match skipn j content with
  | c :: d :: _ => Ascii.eqb c star && Ascii.eqb d slash
  | _ => false
  end.

(* ================================================================= *)
(** * Properties *)

Unset Implicit Arguments.

#[local] Arguments Ascii.eqb : simpl never.
#[local] Arguments Nat.leb : simpl never.
#[local] Arguments Nat.ltb : simpl never.

(** ** Offsets returned by the patterns *)

Lemma skipn_cons_lt (A : Type) (l : list A) (n : nat) (x : A) (l' : list A) :
  skipn n l = x :: l' -> n < length l /\ length l = n + S (length l').
Proof.
  intros H.
  assert (E : length (skipn n l) = length l - n) by apply length_skipn.
  rewrite H in E. simpl in E. lia.
Qed.

Lemma skipn_length_le (A : Type) (l : list A) (n : nat) :
  skipn n l <> [] -> n + length (skipn n l) = length l.
Proof.
  intros H. destruct (skipn n l) eqn:E; [congruence|].
  apply skipn_cons_lt in E. simpl. lia.
Qed.

Lemma find_marker_bounds l : forall i ms me k,
  find_marker l i = Some (ms, me, k) ->
  i <= ms /\ ms < me /\ me <= i + length l.
Proof.
  induction l as [|c l IH]; intros i ms me k H; simpl in H; [discriminate|].
  destruct (Ascii.eqb c backtick); [inversion H; subst; simpl; lia|].
  destruct (Ascii.eqb c dquote); [inversion H; subst; simpl; lia|].
  destruct (Ascii.eqb c slash).
  - destruct l as [|d l'].
    + simpl in H. discriminate.
    + destruct (Ascii.eqb d slash); [inversion H; subst; simpl; lia|].
      destruct (Ascii.eqb d star); [inversion H; subst; simpl; lia|].
      apply IH in H. simpl in *. lia.
  - apply IH in H. simpl. lia.
Qed.

Lemma search_marker_bounds content p ms me k :
  search_marker content p = Some (ms, me, k) ->
  p <= ms /\ ms < me /\ me <= length content.
Proof.
  unfold search_marker. intros H.
  pose proof (find_marker_bounds _ _ _ _ _ H) as B.
  assert (N : skipn p content <> []).
  { intros E. rewrite E in H. discriminate. }
  apply skipn_length_le in N. lia.
Qed.

Lemma find_newline_bounds l : forall i e,
  find_newline l i = Some e -> i < e /\ e <= i + length l.
Proof.
  induction l as [|c l IH]; intros i e H; simpl in H; [discriminate|].
  destruct (Ascii.eqb c newline).
  - inversion H; subst. simpl. lia.
  - apply IH in H. simpl. lia.
Qed.

Lemma find_block_end_bounds l : forall i e,
  find_block_end l i = Some e -> i < e /\ e <= i + length l.
Proof.
  induction l as [|c l IH]; intros i e H; simpl in H; [discriminate|].
  destruct l as [|d l']; [discriminate|].
  destruct (Ascii.eqb c star && Ascii.eqb d slash).
  - inversion H; subst. simpl. lia.
  - apply IH in H. simpl in *. lia.
Qed.

Lemma find_quote_bounds l : forall prev i e,
  find_quote prev l i = Some e -> i < e /\ e <= i + length l.
Proof.
  induction l as [|c l IH]; intros prev i e H; simpl in H; [discriminate|].
  destruct (Ascii.eqb c dquote && negb (is_backslash prev)).
  - inversion H; subst. simpl. lia.
  - apply IH in H. simpl. lia.
Qed.

Lemma search_bounds (find : str -> nat -> option nat) content from e :
  (forall l i e, find l i = Some e -> i < e /\ e <= i + length l) ->
  find (skipn from content) from = Some e ->
  from < e /\ e <= length content.
Proof.
  intros F H. pose proof (F _ _ _ H) as B.
  destruct (skipn from content) eqn:E.
  - simpl in B. lia.
  - apply skipn_cons_lt in E. simpl in B. lia.
Qed.

Lemma search_newline_bounds content from e :
  search_newline content from = Some e -> from < e /\ e <= length content.
Proof. apply search_bounds, find_newline_bounds. Qed.

Lemma search_block_end_bounds content from e :
  search_block_end content from = Some e -> from < e /\ e <= length content.
Proof. apply search_bounds, find_block_end_bounds. Qed.

Lemma search_quote_bounds content from e :
  search_quote content from = Some e -> from < e /\ e <= length content.
Proof.
  unfold search_quote.
  apply (search_bounds (find_quote (char_before content from))).
  intros l i e'. apply find_quote_bounds.
Qed.

Lemma starts_with_length p : forall l rest,
  starts_with p l = Some rest -> length l = length p + length rest.
Proof.
  induction p as [|a p IH]; intros l rest H; simpl in H.
  - inversion H; subst. reflexivity.
  - destruct l as [|b l]; [discriminate|].
    destruct (Ascii.eqb a b); [|discriminate].
    apply IH in H. simpl. lia.
Qed.

Lemma span_length f l : forall a b,
  span f l = (a, b) -> length l = length a + length b.
Proof.
  induction l as [|c l IH]; intros a b H; simpl in H.
  - inversion H; subst. reflexivity.
  - destruct (f c).
    + destruct (span f l) as [a' b'] eqn:E. inversion H; subst.
      specialize (IH _ _ eq_refl). simpl. lia.
    + inversion H; subst. reflexivity.
Qed.

Lemma identifier_length l name rest :
  identifier l = Some (name, rest) ->
  length l = length name + length rest /\ 0 < length name.
Proof.
  unfold identifier. destruct l as [|c l]; [discriminate|].
  destruct (is_ident_start c); [|discriminate].
  destruct (span is_ident_char l) as [a b] eqn:E. intros H.
  inversion H; subst. apply span_length in E. simpl. lia.
Qed.

Lemma skipn_total_length (content : str) (start : nat) :
  skipn start content <> [] ->
  length content = start + length (skipn start content).
Proof. intros H. apply skipn_length_le in H. lia. Qed.

Lemma starts_with_nonempty p l rest :
  starts_with p l = Some rest -> p <> [] -> l <> [].
Proof. destruct p, l; simpl; congruence. Qed.

Lemma match_include_bounds content start path e :
  match_include content start = Some (path, e) ->
  start < e /\ e + 1 <= length content.
Proof.
  unfold match_include.
  destruct (starts_with _ _) as [rest|] eqn:S; [|discriminate].
  destruct (span _ rest) as [p r] eqn:E.
  destruct p as [|c p]; [discriminate|]. destruct r as [|q r]; [discriminate|].
  intros H. inversion H; subst.
  pose proof (starts_with_length _ _ _ S) as L.
  apply span_length in E.
  assert (N : skipn start content <> []).
  { eapply starts_with_nonempty; [exact S|discriminate]. }
  apply skipn_total_length in N.
  change (length (lit "`include " ++ [dquote])) with 10 in L.
  simpl in *. lia.
Qed.

Lemma match_define_bounds content start name e :
  match_define content start = Some (name, e) ->
  start < e /\ e <= length content.
Proof.
  unfold match_define.
  destruct (starts_with _ _) as [rest|] eqn:S; [|discriminate].
  destruct (identifier rest) as [[n r]|] eqn:E; [|discriminate].
  intros H. inversion H; subst.
  pose proof (starts_with_length _ _ _ S) as L.
  apply identifier_length in E.
  assert (N : skipn start content <> []).
  { eapply starts_with_nonempty; [exact S|discriminate]. }
  apply skipn_total_length in N.
  change (length (lit "`define ")) with 8 in L. lia.
Qed.

Lemma match_keyword_name_bounds kw content start name e :
  kw <> [] ->
  match_keyword_name kw content start = Some (name, e) ->
  start < e /\ e <= length content.
Proof.
  unfold match_keyword_name. intros K.
  destruct (starts_with _ _) as [rest|] eqn:S; [|discriminate].
  destruct (span is_space rest) as [ws r] eqn:W.
  destruct ws as [|w ws]; [discriminate|].
  destruct (identifier r) as [[n r']|] eqn:E; [|discriminate].
  intros H. inversion H; subst.
  pose proof (starts_with_length _ _ _ S) as L.
  apply span_length in W. apply identifier_length in E.
  assert (N : skipn start content <> []).
  { eapply starts_with_nonempty; [exact S|exact K]. }
  apply skipn_total_length in N. simpl in *. lia.
Qed.

Lemma match_keyword_bounds kw content start e :
  kw <> [] ->
  match_keyword kw content start = Some e ->
  start < e /\ e < length content.
Proof.
  unfold match_keyword. intros K.
  destruct (starts_with _ _) as [rest|] eqn:S; [|discriminate].
  destruct rest as [|c rest]; [discriminate|].
  destruct (is_ident_char c); [discriminate|].
  intros H. inversion H; subst.
  pose proof (starts_with_length _ _ _ S) as L.
  assert (N : skipn start content <> []).
  { eapply starts_with_nonempty; [exact S|exact K]. }
  apply skipn_total_length in N.
  destruct kw; [congruence|]. simpl in *. lia.
Qed.

Lemma recognise_within content match_start :
  directive_within content match_start (recognise content match_start).
Proof.
  unfold recognise.
  destruct (match_include _ _) as [[p e]|] eqn:E1.
  { apply match_include_bounds in E1. simpl. lia. }
  destruct (match_define _ _) as [[n e]|] eqn:E2.
  { apply match_define_bounds in E2. simpl. lia. }
  destruct (match_undef _ _) as [[n e]|] eqn:E3.
  { apply match_keyword_name_bounds in E3; [simpl; lia|discriminate]. }
  destruct (match_resetall _ _) as [e|] eqn:E4.
  { apply match_keyword_bounds in E4; [simpl; lia|discriminate]. }
  destruct (match_ifdef _ _) as [[n e]|] eqn:E5.
  { apply match_keyword_name_bounds in E5; [simpl; lia|discriminate]. }
  destruct (match_else _ _) as [e|] eqn:E6.
  { apply match_keyword_bounds in E6; [simpl; lia|discriminate]. }
  destruct (match_endif _ _) as [e|] eqn:E7.
  { apply match_keyword_bounds in E7; [simpl; lia|discriminate]. }
  destruct (match_ifndef _ _) as [[n e]|] eqn:E8.
  { apply match_keyword_name_bounds in E8; [simpl; lia|discriminate]. }
  exact I.
Qed.

(** ** The loop: unfolding and the invariant *)

Lemma loop_done os incdirs fuel content sh loc :
  length content <= pos loc ->
  loop os incdirs fuel content sh loc = Ok (sh, loc).
Proof.
  intros H. assert (E : (pos loc <? length content) = false)
    by (apply Nat.ltb_ge; exact H).
  destruct fuel; simpl; rewrite E; reflexivity.
Qed.

Lemma loop_step os incdirs fuel content sh loc :
  pos loc < length content ->
  loop os incdirs (S fuel) content sh loc =
  (r <- step os incdirs (nested os incdirs fuel) content sh loc ;;
   loop os incdirs fuel content (fst r) (snd r)).
Proof.
  intros H. apply Nat.ltb_lt in H. simpl. rewrite H. reflexivity.
Qed.

Lemma ascending_snoc rs : forall lo s e,
  ascending lo rs -> (forall r, In r rs -> snd r <= s) ->
  lo <= s -> s <= e -> ascending lo (rs ++ [(s, e)]).
Proof.
  induction rs as [|[s1 e1] rs IH]; intros lo s e A B L1 L2; simpl.
  - auto.
  - simpl in A. destruct A as (A1 & A2 & A3).
    repeat split; try assumption.
    apply IH; try assumption.
    + intros r Hr. apply B. right. exact Hr.
    + apply (B (s1, e1)). left. reflexivity.
Qed.

Lemma ascending_in rs : forall lo r,
  ascending lo rs -> In r rs -> lo <= fst r /\ fst r <= snd r.
Proof.
  induction rs as [|[s e] rs IH]; intros lo r A H; simpl in *; [contradiction|].
  destruct A as (A1 & A2 & A3). destruct H as [H|H].
  - subst. simpl. lia.
  - destruct (IH _ _ A3 H). lia.
Qed.

Lemma ascending_pairwise rs : forall lo i j ri rj,
  ascending lo rs -> i < j ->
  nth_error rs i = Some ri -> nth_error rs j = Some rj ->
  snd ri <= fst rj.
Proof.
  induction rs as [|[s e] rs IH]; intros lo i j ri rj A L Hi Hj.
  - destruct i; discriminate.
  - simpl in A. destruct A as (A1 & A2 & A3).
    destruct j as [|j]; [lia|]. simpl in Hj.
    destruct i as [|i]; simpl in Hi.
    + inversion Hi; subst. simpl.
      apply nth_error_In in Hj.
      destruct (ascending_in _ _ _ A3 Hj). assumption.
    + apply (IH e i j ri rj); try assumption. lia.
Qed.

Lemma inv_init content : inv content init_locals.
Proof.
  unfold inv, init_locals; simpl.
  repeat split; intros; try lia; try contradiction; try discriminate.
Qed.

Lemma inv_move content loc p :
  inv content loc -> pos loc <= p -> p <= length content ->
  inv content (with_pos p loc).
Proof.
  unfold inv. intros (I1 & I2 & I3 & I4) L1 L2. simpl.
  repeat split; try assumption.
  - intros r Hr. specialize (I3 r Hr).
    destruct (exclude loc); [assumption|lia].
  - intros E. specialize (I4 E). lia.
Qed.

Lemma inv_begin content loc s p :
  inv content loc -> exclude loc = false ->
  pos loc <= s -> s <= p -> p <= length content ->
  inv content (with_pos p (begin_exclusion s loc)).
Proof.
  unfold inv. intros (I1 & I2 & I3 & I4) E L1 L2 L3. simpl.
  repeat split; try assumption.
  - intros r Hr. specialize (I3 r Hr). rewrite E in I3. lia.
  - intros _. assumption.
Qed.

Lemma inv_end content loc e p :
  inv content loc -> exclude loc = true ->
  pos loc <= e -> e <= p -> p <= length content ->
  inv content (with_pos p (end_exclusion e loc)).
Proof.
  unfold inv. intros (I1 & I2 & I3 & I4) E L1 L2 L3. simpl.
  specialize (I4 E). rewrite E in I3.
  repeat split; try assumption.
  - apply ascending_snoc; try assumption; lia.
  - intros r Hr. apply in_app_or in Hr. destruct Hr as [Hr|[Hr|[]]].
    + specialize (I3 r Hr). lia.
    + subst. simpl. lia.
  - discriminate.
Qed.

Ltac ok_inv H := inversion H; subst; clear H.

Lemma exec_inv os incdirs rec content ms me d sh loc sh' loc' :
  directive_within content ms d ->
  pos loc <= ms -> ms < me -> me <= length content ->
  inv content loc ->
  exec os incdirs rec d me sh loc = Ok (sh', loc') ->
  inv content loc' /\ pos loc <= pos loc'.
Proof.
  intros W L1 L2 L3 I H.
  destruct d as [path e|name e|name e|e|name s e|s e|e|name s e|];
    simpl in W, H.
  - (* include *)
    destruct (py_last (head sh)); [|discriminate].
    match type of H with (bind ?r _ = _) => destruct r; simpl in H end;
      try discriminate.
    ok_inv H. split; [apply inv_move|simpl]; try assumption; lia.
  - (* define *)
    destruct (negb (mem name (defines sh))); ok_inv H.
    + split; [apply inv_move|simpl]; try assumption; lia.
    + split; [assumption|lia].
  - (* undef *)
    destruct (mem name (defines sh)); ok_inv H.
    + split; [apply inv_move|simpl]; try assumption; lia.
    + split; [assumption|lia].
  - (* resetall *)
    ok_inv H. split; [apply inv_move|simpl]; try assumption; lia.
  - (* ifdef *)
    destruct W as (-> & W1 & W2).
    destruct (exclude loc) eqn:E; simpl in H.
    + ok_inv H. split; [apply inv_move|simpl]; try assumption; lia.
    + destruct (negb (mem name (defines sh))); ok_inv H.
      * split; [apply inv_begin|simpl]; try assumption; lia.
      * split; [apply inv_move|simpl]; try assumption; lia.
  - (* else *)
    destruct W as (-> & W1 & W2).
    destruct (py_last (conditionals sh)) as [top|]; [|discriminate].
    destruct (exclude loc) eqn:E; simpl in H.
    + destruct (Cond.exclude top); ok_inv H.
      * split; [apply inv_end|simpl]; try assumption; lia.
      * split; [apply inv_move|simpl]; try assumption; lia.
    + ok_inv H. split; [apply inv_begin|simpl]; try assumption; lia.
  - (* endif *)
    destruct W as (W1 & W2).
    destruct (exclude loc) eqn:E; simpl in H.
    + destruct (py_last (conditionals sh)) as [top|]; [|discriminate].
      destruct (Cond.exclude top); simpl in H;
        destruct (conditionals sh); try discriminate; ok_inv H.
      * split; [apply inv_end|simpl]; try assumption; lia.
      * split; [apply inv_move|simpl]; try assumption; lia.
    + destruct (conditionals sh); try discriminate; ok_inv H.
      split; [apply inv_move|simpl]; try assumption; lia.
  - (* ifndef *)
    destruct W as (-> & W1 & W2).
    destruct (exclude loc) eqn:E; simpl in H.
    + ok_inv H. split; [apply inv_move|simpl]; try assumption; lia.
    + destruct (mem name (defines sh)); ok_inv H.
      * split; [apply inv_begin|simpl]; try assumption; lia.
      * split; [apply inv_move|simpl]; try assumption; lia.
  - (* no directive *)
    ok_inv H. split; [apply inv_move|simpl]; try assumption; lia.
Qed.

Lemma step_inv os incdirs rec content sh loc sh' loc' :
  inv content loc ->
  step os incdirs rec content sh loc = Ok (sh', loc') ->
  inv content loc' /\ pos loc <= pos loc'.
Proof.
  intros I H. unfold step in H.
  pose proof I as (I1 & _).
  destruct (search_marker content (pos loc)) as [[[ms me] k]|] eqn:M.
  - apply search_marker_bounds in M. destruct M as (M1 & M2 & M3).
    destruct k.
    + apply (exec_inv os incdirs rec content ms me
               (recognise content ms) sh loc sh' loc');
        try assumption. apply recognise_within.
    + destruct (search_quote content me) as [e|] eqn:Q.
      * apply search_quote_bounds in Q. ok_inv H.
        split; [apply inv_move|simpl]; try assumption; lia.
      * ok_inv H. split; [apply inv_move|simpl]; try assumption; lia.
    + destruct (search_newline content me) as [e|] eqn:Q.
      * apply search_newline_bounds in Q. ok_inv H.
        split; [apply inv_move|simpl]; try assumption; lia.
      * ok_inv H. split; [apply inv_move|simpl]; try assumption; lia.
    + destruct (search_block_end content me) as [e|] eqn:Q.
      * apply search_block_end_bounds in Q. ok_inv H.
        split; [apply inv_move|simpl]; try assumption; lia.
      * ok_inv H. split; [apply inv_move|simpl]; try assumption; lia.
  - ok_inv H. split; [apply inv_move|simpl]; try assumption; lia.
Qed.

Lemma loop_inv os incdirs fuel : forall content sh loc sh' loc',
  inv content loc ->
  loop os incdirs fuel content sh loc = Ok (sh', loc') ->
  inv content loc'.
Proof.
  induction fuel as [|fuel IH]; intros content sh loc sh' loc' I H.
  - simpl in H. destruct (pos loc <? length content); [discriminate|].
    ok_inv H. assumption.
  - destruct (Nat.lt_ge_cases (pos loc) (length content)) as [L|L].
    + rewrite loop_step in H by assumption.
      destruct (step os incdirs (nested os incdirs fuel) content sh loc)
        as [[sh1 loc1]| | |] eqn:S; simpl in H; try discriminate.
      apply step_inv in S; [|assumption]. destruct S as (I1 & _).
      eapply IH; eassumption.
    + rewrite loop_done in H by assumption. ok_inv H. assumption.
Qed.

(** ** Input without markers *)

Lemma occurs_cons_false p c l :
  occurs p (c :: l) = false ->
  starts_with p (c :: l) = None /\ occurs p l = false.
Proof.
  simpl. destruct (starts_with p (c :: l)); [discriminate|]. auto.
Qed.

Lemma find_marker_none l : forall i,
  occurs [backtick] l = false -> occurs [dquote] l = false ->
  occurs [slash; slash] l = false -> occurs [slash; star] l = false ->
  find_marker l i = None.
Proof.
  induction l as [|c l IH]; intros i H1 H2 H3 H4; [reflexivity|].
  apply occurs_cons_false in H1, H2, H3, H4.
  destruct H1 as (S1 & H1), H2 as (S2 & H2), H3 as (S3 & H3), H4 as (S4 & H4).
  specialize (IH (S i) H1 H2 H3 H4).
  simpl in S1, S2, S3, S4. simpl.
  rewrite (Ascii.eqb_sym c backtick), (Ascii.eqb_sym c dquote),
    (Ascii.eqb_sym c slash).
  destruct (Ascii.eqb backtick c); [discriminate|].
  destruct (Ascii.eqb dquote c); [discriminate|].
  destruct (Ascii.eqb slash c); [|exact IH].
  destruct l as [|d l']; [exact IH|].
  rewrite (Ascii.eqb_sym d slash), (Ascii.eqb_sym d star).
  destruct (Ascii.eqb slash d); [discriminate|].
  destruct (Ascii.eqb star d); [discriminate|].
  exact IH.
Qed.

Lemma marker_free_search content :
  marker_free content = true -> search_marker content 0 = None.
Proof.
  unfold marker_free, search_marker. intros H.
  repeat (apply andb_prop in H; destruct H as [H ?]).
  apply find_marker_none; apply negb_true_iff; assumption.
Qed.

(** C8. The regions [preproc] returns are half-open intervals over the
    offsets of its own [content] (start <= end <= length), pairwise
    non-overlapping and in ascending order: a region that comes earlier in
    the list ends at or before the start of every later one.  An input
    with no backtick, no double quote, no two slashes and no slash-star
    returns the empty list and leaves the shared state as it was. *)
Theorem regions_ascending_disjoint os incdirs content sh :
  (forall fuel regs sh',
      preproc os incdirs fuel content sh = Ok (regs, sh') ->
      (forall r, In r regs -> fst r <= snd r /\ snd r <= length content)
      /\ (forall i j ri rj, i < j ->
            nth_error regs i = Some ri -> nth_error regs j = Some rj ->
            snd ri <= fst rj))
  /\ (marker_free content = true ->
      forall fuel, preproc os incdirs (S fuel) content sh = Ok ([], sh)).
Proof.
  split.
  - intros fuel regs sh' H. unfold preproc in H.
    destruct (loop os incdirs fuel content sh init_locals)
      as [[sh1 loc1]| | |] eqn:L; simpl in H; try discriminate.
    ok_inv H. apply loop_inv in L; [|apply inv_init].
    destruct L as (I1 & I2 & I3 & I4). split.
    + intros r Hr. destruct (ascending_in _ _ _ I2 Hr) as (_ & A).
      split; [exact A|]. specialize (I3 r Hr).
      destruct (exclude loc1); [specialize (I4 eq_refl)|]; lia.
    + intros i j ri rj. apply ascending_pairwise with (lo := 0). exact I2.
  - intros F fuel. unfold preproc.
    destruct content as [|c content'] eqn:C.
    + rewrite loop_done by (simpl; lia). reflexivity.
    + rewrite <- C in *. rewrite loop_step by (rewrite C; simpl; lia).
      unfold step. simpl pos. rewrite (marker_free_search _ F). simpl.
      rewrite loop_done by (simpl; lia). reflexivity.
Qed.

Lemma regions_ascending_disjoint_witness :
  (forall r, In r [(0, 19)] ->
     fst r <= snd r /\
     snd r <= length (lit "`ifdef A" ++ nl ++ lit "foo" ++ nl ++ lit "`endif "))
  /\ preproc demo_os demo_incdirs 1 (lit "module m; endmodule") demo_shared
     = Ok ([], demo_shared).
Proof.
  split.
  - apply (proj1 (regions_ascending_disjoint demo_os demo_incdirs
             (lit "`ifdef A" ++ nl ++ lit "foo" ++ nl ++ lit "`endif ")
             demo_shared) 5 [(0, 19)] demo_shared).
    reflexivity.
  - apply (proj2 (regions_ascending_disjoint demo_os demo_incdirs
             (lit "module m; endmodule") demo_shared)).
    reflexivity.
Defined.

(** ** Iterations that do not advance *)

Lemma loop_step_ok os incdirs fuel content sh loc sh1 loc1 :
  pos loc < length content ->
  step os incdirs (nested os incdirs fuel) content sh loc = Ok (sh1, loc1) ->
  loop os incdirs (S fuel) content sh loc =
  loop os incdirs fuel content sh1 loc1.
Proof.
  intros L E. rewrite loop_step by assumption. rewrite E. reflexivity.
Qed.

Lemma loop_stuck os incdirs content sh loc :
  pos loc < length content ->
  (forall rec, step os incdirs rec content sh loc = Ok (sh, loc)) ->
  forall fuel, loop os incdirs fuel content sh loc = OutOfFuel.
Proof.
  intros L E fuel. induction fuel as [|fuel IH].
  - simpl. apply Nat.ltb_lt in L. rewrite L. reflexivity.
  - rewrite (loop_step_ok os incdirs fuel content sh loc sh loc L (E _)).
    exact IH.
Qed.

Lemma marker_in_content content p ms me k :
  search_marker content p = Some (ms, me, k) -> p < length content.
Proof. intros H. apply search_marker_bounds in H. lia. Qed.

(** A [`define] of a name that is already defined leaves [pos] where it
    was (line 188 is inside the [if] of line 186): the loop finds the same
    backtick again and again. *)
Lemma redefine_stuck os incdirs content sh loc ms me name e :
  search_marker content (pos loc) = Some (ms, me, Backtick) ->
  recognise content ms = Define name e ->
  mem name (defines sh) = true ->
  forall fuel, loop os incdirs fuel content sh loc = OutOfFuel.
Proof.
  intros M R D. apply loop_stuck.
  - eapply marker_in_content; eassumption.
  - intros rec. unfold step. rewrite M, R. simpl. rewrite D. reflexivity.
Qed.

(** The same for an [`undef] of a name that is not defined (line 196 is
    inside the [if] of line 194). *)
Lemma undef_absent_stuck os incdirs content sh loc ms me name e :
  search_marker content (pos loc) = Some (ms, me, Backtick) ->
  recognise content ms = Undef name e ->
  mem name (defines sh) = false ->
  forall fuel, loop os incdirs fuel content sh loc = OutOfFuel.
Proof.
  intros M R D. apply loop_stuck.
  - eapply marker_in_content; eassumption.
  - intros rec. unfold step. rewrite M, R. simpl. rewrite D. reflexivity.
Qed.

(** C1 (the code departs from the claim). A second [`define A] and an
    [`undef A] of an undefined [A] are not passed: [pos] stays before the
    directive, so the run returns for no amount of fuel. *)
Theorem redefine_and_undef_absent_never_return os incdirs dir fuel :
  run os incdirs fuel dir (lit "`define A `define A") = OutOfFuel
  /\ run os incdirs fuel dir (lit "`undef A ") = OutOfFuel.
Proof.
  unfold run, preproc. split.
  - destruct fuel as [|fuel]; [reflexivity|].
    rewrite (loop_step_ok os incdirs fuel _ _ _
               (mkShared [lit "A"] [] [dir] []) (with_pos 9 init_locals));
      [|simpl; lia|reflexivity].
    rewrite (redefine_stuck os incdirs _ _ _ 10 11 (lit "A") 19);
      reflexivity.
  - rewrite (undef_absent_stuck os incdirs _ _ _ 0 1 (lit "A") 8);
      reflexivity.
Qed.

(** ** [`else] and [`endif] without an open conditional *)

Lemma exec_else_empty os incdirs rec s e match_end sh loc :
  conditionals sh = [] ->
  exec os incdirs rec (Else s e) match_end sh loc = IndexError.
Proof. intros E. simpl. rewrite E. reflexivity. Qed.

Lemma exec_endif_empty os incdirs rec e match_end sh loc :
  conditionals sh = [] ->
  exec os incdirs rec (Endif e) match_end sh loc = IndexError.
Proof.
  intros E. simpl. rewrite E. simpl. destruct (exclude loc); reflexivity.
Qed.

(** C2 (the code departs from the claim). With no open conditional,
    [self.conditionals[-1]] of lines 223 and 243 raises: a buffer that
    starts with [`endif] or [`else] ends the run with [IndexError]. *)
Theorem else_endif_on_empty_stack_raise os incdirs dir fuel :
  run os incdirs (S fuel) dir (lit "`endif ") = IndexError
  /\ run os incdirs (S fuel) dir (lit "`else ") = IndexError.
Proof.
  unfold run, preproc.
  split; (rewrite loop_step by (simpl; lia)); reflexivity.
Qed.

(** ** The directory stack of an include *)

Lemma include_file_read_error os rec file_name sh :
  fs os file_name = ReadError ->
  include_file os rec file_name sh =
  Ok (print (CantOpen file_name)
        (with_head (head sh ++ [os_path_split_0 os file_name]) sh)).
Proof. intros E. unfold include_file. rewrite E. reflexivity. Qed.

(** C9 (the code departs from the claim). [src/broken.vh] opens and
    raises [OSError] while it is read: the directory pushed at line 160
    is not popped, the [except] of line 164 only prints, and the run goes
    on with [self.head] one entry longer. *)
Theorem include_read_error_keeps_directory_pushed :
  fmap (fun r => (head (snd r), stdout (snd r)))
       (run demo_os demo_incdirs 2 (lit "src")
            (lit "`include " ++ quoted (lit "broken.vh") ++ nl))
  = Ok ([lit "src"; lit "src"], [CantOpen (lit "src/broken.vh")]).
Proof. reflexivity. Qed.

(** ** Comments and strings *)

(** The iteration on a line comment, a block comment or a double quote
    only moves [pos] (and may print): the define table, the conditional
    stack, the directory stack, the regions and the exclusion cursor are as
    before, and [pos] lands at or after the end of the opening marker,
    inside the buffer.  Where the skipped span ends is stated apart, for
    each of the three constructs. *)
Theorem comment_string_span_inert os incdirs rec content sh loc ms me k :
  search_marker content (pos loc) = Some (ms, me, k) ->
  k <> Backtick ->
  exists sh' loc',
    step os incdirs rec content sh loc = Ok (sh', loc')
    /\ defines sh' = defines sh
    /\ conditionals sh' = conditionals sh
    /\ head sh' = head sh
    /\ regions loc' = regions loc
    /\ exclude loc' = exclude loc
    /\ exclude_pos_start loc' = exclude_pos_start loc
    /\ me <= pos loc' <= length content
    /\ (forall ms' me' k',
          search_marker content (pos loc') = Some (ms', me', k') ->
          pos loc' <= ms').
Proof.
  intros M K. unfold step. rewrite M.
  pose proof (search_marker_bounds _ _ _ _ _ M) as (B1 & B2 & B3).
  assert (N : forall p ms' me' k',
             search_marker content p = Some (ms', me', k') -> p <= ms').
  { intros p ms' me' k' H. apply search_marker_bounds in H. lia. }
  destruct k; [congruence| | |].
  - destruct (search_quote content me) as [e|] eqn:Q.
    + apply search_quote_bounds in Q.
      exists sh, (with_pos e loc). simpl. repeat split; try lia. apply N.
    + exists (print StringNotEnded sh), (with_pos (length content) loc).
      simpl. repeat split; try lia. apply N.
  - destruct (search_newline content me) as [e|] eqn:Q.
    + apply search_newline_bounds in Q.
      exists sh, (with_pos e loc). simpl. repeat split; try lia. apply N.
    + exists (print LineCommentNotEnded sh), (with_pos (length content) loc).
      simpl. repeat split; try lia. apply N.
  - destruct (search_block_end content me) as [e|] eqn:Q.
    + apply search_block_end_bounds in Q.
      exists sh, (with_pos e loc). simpl. repeat split; try lia. apply N.
    + exists (print BlockCommentNotEnded sh), (with_pos (length content) loc).
      simpl. repeat split; try lia. apply N.
Qed.

Lemma comment_string_span_inert_witness :
  exists sh' loc',
    step demo_os demo_incdirs no_rec
         (lit "// `define A" ++ nl ++ lit "`ifdef A") demo_shared init_locals
    = Ok (sh', loc')
    /\ defines sh' = defines demo_shared
    /\ conditionals sh' = conditionals demo_shared
    /\ head sh' = head demo_shared
    /\ regions loc' = regions init_locals
    /\ exclude loc' = exclude init_locals
    /\ exclude_pos_start loc' = exclude_pos_start init_locals
    /\ 2 <= pos loc' <= length (lit "// `define A" ++ nl ++ lit "`ifdef A")
    /\ (forall ms' me' k',
          search_marker (lit "// `define A" ++ nl ++ lit "`ifdef A")
                        (pos loc') = Some (ms', me', k') ->
          pos loc' <= ms').
Proof.
  apply (comment_string_span_inert demo_os demo_incdirs no_rec
           (lit "// `define A" ++ nl ++ lit "`ifdef A")
           demo_shared init_locals 0 2 LineComment).
  - reflexivity.
  - discriminate.
Defined.

(** ** Resolution of an include *)

Lemma starts_with_app p : forall l rest,
  starts_with p l = Some rest -> l = p ++ rest.
Proof.
  induction p as [|a p IH]; intros l rest H; simpl in H.
  - inversion H. reflexivity.
  - destruct l as [|b l]; [discriminate|].
    destruct (Ascii.eqb a b) eqn:E; [|discriminate].
    apply Ascii.eqb_eq in E. subst b. simpl. f_equal. apply IH. exact H.
Qed.

Lemma span_app f l : forall a b,
  span f l = (a, b) ->
  l = a ++ b /\ Forall (fun c => f c = true) a
  /\ match b with
     | c :: _ => f c = false
     | [] => True
     end.
Proof.
  induction l as [|c l IH]; intros a b H; simpl in H.
  - inversion H; subst. simpl. auto.
  - destruct (f c) eqn:F.
    + destruct (span f l) as [a' b'] eqn:E. inversion H; subst.
      destruct (IH _ _ eq_refl) as (I1 & I2 & I3).
      simpl. repeat split; [congruence|constructor; assumption|assumption].
    + inversion H; subst. simpl. auto.
Qed.

(** What [match_include] has matched: the directive text up to the closing
    double quote at offset [e]; the path holds no double quote. *)
Lemma match_include_shape content start path e :
  match_include content start = Some (path, e) ->
  exists rest,
    skipn start content = lit "`include " ++ quoted path ++ rest
    /\ e + 1 = start + length (lit "`include " ++ quoted path)
    /\ Forall (fun c => c <> dquote) path.
Proof.
  unfold match_include.
  destruct (starts_with _ _) as [rest|] eqn:S; [|discriminate].
  destruct (span _ rest) as [p r] eqn:E.
  destruct p as [|c p]; [discriminate|]. destruct r as [|q r]; [discriminate|].
  intros H. inversion H; subst. clear H.
  apply starts_with_app in S.
  apply span_app in E. destruct E as (E1 & E2 & E3).
  apply negb_false_iff, Ascii.eqb_eq in E3. subst q rest.
  exists r. split; [|split].
  - rewrite S. unfold quoted. rewrite <- !app_assoc. reflexivity.
  - unfold quoted. rewrite !length_app. simpl. lia.
  - eapply Forall_impl; [|exact E2]. simpl. intros a Ha ->.
    rewrite Ascii.eqb_refl in Ha. discriminate.
Qed.

Lemma recognise_include content ms path e :
  match_include content ms = Some (path, e) ->
  recognise content ms = Include path e.
Proof. intros H. unfold recognise. rewrite H. reflexivity. Qed.

Lemma include_incdirs_located os rec path sh : forall dirs,
  include_incdirs os rec path dirs sh =
  match find (os_path_isfile os)
             (map (fun d => os_path_normpath os (os_path_join os d path)) dirs)
  with
  | Some f => include_file os rec f sh
  | None => Ok sh
  end.
Proof.
  induction dirs as [|d dirs IH]; simpl; [reflexivity|].
  destruct (os_path_isfile os _); [reflexivity|exact IH].
Qed.

Lemma exec_include os incdirs rec path e match_end sh loc h :
  py_last (head sh) = Some h ->
  exec os incdirs rec (Include path e) match_end sh loc =
  (sh' <- match located os incdirs h path with
          | Some f => include_file os rec f sh
          | None => Ok sh
          end ;;
   Ok (sh', with_pos (e + 1) loc)).
Proof.
  intros H. simpl. rewrite H. unfold located, candidates. simpl.
  destruct (os_path_isfile os _); [reflexivity|].
  rewrite include_incdirs_located. reflexivity.
Qed.

Lemma step_include os incdirs rec content sh loc ms me path e h :
  search_marker content (pos loc) = Some (ms, me, Backtick) ->
  match_include content ms = Some (path, e) ->
  py_last (head sh) = Some h ->
  step os incdirs rec content sh loc =
  (sh' <- match located os incdirs h path with
          | Some f => include_file os rec f sh
          | None => Ok sh
          end ;;
   Ok (sh', with_pos (e + 1) loc)).
Proof.
  intros M I H. unfold step. rewrite M, (recognise_include _ _ _ _ I).
  apply exec_include. exact H.
Qed.

(** C3, as the code has it. An include whose target is found neither
    in the directory on top of [self.head] nor in any configured directory
    changes nothing but [pos] and prints nothing; one whose file is found
    and raises [OSError] when it is opened or read prints the [Can't open]
    message and leaves the define table and the conditional stack as they
    were.  In both cases [pos] becomes the offset right after the closing
    double quote of the path.  (A file whose [read] raises another
    exception is not in this statement: see [include_decode_error_aborts].)
    *)
Theorem unresolved_include_is_skipped
        os incdirs rec content sh loc ms me path e h :
  search_marker content (pos loc) = Some (ms, me, Backtick) ->
  match_include content ms = Some (path, e) ->
  py_last (head sh) = Some h ->
  (located os incdirs h path = None ->
   step os incdirs rec content sh loc = Ok (sh, with_pos (e + 1) loc))
  /\ (forall f, located os incdirs h path = Some f ->
        fs os f = OpenError \/ fs os f = ReadError ->
        exists sh',
          step os incdirs rec content sh loc = Ok (sh', with_pos (e + 1) loc)
          /\ defines sh' = defines sh
          /\ conditionals sh' = conditionals sh
          /\ stdout sh' = stdout sh ++ [CantOpen f])
  /\ (exists rest,
        skipn ms content = lit "`include " ++ quoted path ++ rest
        /\ e + 1 = ms + length (lit "`include " ++ quoted path)).
Proof.
  intros M I H. rewrite (step_include _ _ _ _ _ _ _ _ _ _ _ M I H).
  split; [|split].
  - intros L. rewrite L. reflexivity.
  - intros f L [E|E]; rewrite L; unfold include_file; rewrite E;
      eexists; simpl; repeat split.
  - destruct (match_include_shape _ _ _ _ I) as (rest & S1 & S2 & _).
    exists rest. auto.
Qed.

Lemma unresolved_include_is_skipped_witness :
  step demo_os demo_incdirs no_rec
       (lit "`include " ++ quoted (lit "missing.vh") ++ nl)
       demo_shared init_locals
  = Ok (demo_shared, with_pos 21 init_locals)
  /\ exists sh',
       step demo_os demo_incdirs no_rec
            (lit "`include " ++ quoted (lit "locked.vh") ++ nl)
            demo_shared init_locals
       = Ok (sh', with_pos 20 init_locals)
       /\ defines sh' = defines demo_shared
       /\ conditionals sh' = conditionals demo_shared
       /\ stdout sh' = stdout demo_shared ++ [CantOpen (lit "src/locked.vh")].
Proof.
  split.
  - apply (proj1 (unresolved_include_is_skipped
                    demo_os demo_incdirs no_rec
                    (lit "`include " ++ quoted (lit "missing.vh") ++ nl)
                    demo_shared init_locals 0 1 (lit "missing.vh") 20
                    (lit "src") eq_refl eq_refl eq_refl)).
    reflexivity.
  - apply (proj1 (proj2 (unresolved_include_is_skipped
                    demo_os demo_incdirs no_rec
                    (lit "`include " ++ quoted (lit "locked.vh") ++ nl)
                    demo_shared init_locals 0 1 (lit "locked.vh") 19
                    (lit "src") eq_refl eq_refl eq_refl))
             (lit "src/locked.vh")).
    + reflexivity.
    + left. reflexivity.
Defined.

(** C3, as the claim states it, fails: [missing.vh] exists neither in
    [src] nor in [lib], and the run prints nothing. *)
Lemma unresolved_include_prints_nothing :
  located demo_os demo_incdirs (lit "src") (lit "missing.vh") = None
  /\ fmap (fun r => stdout (snd r))
          (run demo_os demo_incdirs 2 (lit "src")
               (lit "`include " ++ quoted (lit "missing.vh") ++ nl))
     = Ok [].
Proof. split; reflexivity. Qed.

(** [latin.vh] opens and cannot be decoded: [except OSError] does not
    catch the [UnicodeDecodeError] of [file.read()], and the run ends with
    it. *)
Lemma include_decode_error_aborts :
  run demo_os demo_incdirs 2 (lit "src")
      (lit "`include " ++ quoted (lit "latin.vh") ++ nl)
  = UnicodeDecodeError.
Proof. reflexivity. Qed.

(** ** A successful include *)

Lemma removelast_length (A : Type) (l : list A) :
  length (removelast l) = length l - 1.
Proof.
  induction l as [|x l IH]; [reflexivity|].
  destruct l as [|y l]; [reflexivity|].
  change (removelast (x :: y :: l)) with (x :: removelast (y :: l)).
  simpl length in *. lia.
Qed.

Lemma include_file_head os rec f sh sh' :
  (forall c s s', rec c s = Ok s' -> length (head s) <= length (head s')) ->
  include_file os rec f sh = Ok sh' ->
  length (head sh) <= length (head sh').
Proof.
  intros R. unfold include_file.
  destruct (fs os f) as [| | | |c]; simpl; intros H.
  - ok_inv H. simpl. lia.
  - ok_inv H. simpl. lia.
  - ok_inv H. simpl. rewrite length_app. simpl. lia.
  - discriminate.
  - destruct (rec c _) as [s1| | |] eqn:E; simpl in H; try discriminate.
    apply R in E. simpl in E. rewrite length_app in E. simpl in E.
    destruct (head s1) eqn:H1; [discriminate|]. ok_inv H.
    cbn [head with_head].
    change (length (head sh) <= length (removelast (s :: l))).
    rewrite removelast_length. simpl length in *. lia.
Qed.

Lemma exec_head os incdirs rec d match_end sh loc sh' loc' :
  (forall c s s', rec c s = Ok s' -> length (head s) <= length (head s')) ->
  exec os incdirs rec d match_end sh loc = Ok (sh', loc') ->
  length (head sh) <= length (head sh').
Proof.
  intros R H.
  destruct d as [path e|name e|name e|e|name s e|s e|e|name s e|];
    simpl in H.
  - destruct (py_last (head sh)) as [h|] eqn:P; [|discriminate].
    pose proof (exec_include os incdirs rec path e match_end sh loc h P) as X.
    simpl in X. rewrite P in X. rewrite X in H. clear X.
    destruct (located os incdirs h path) as [f|].
    + destruct (include_file os rec f sh) as [s1| | |] eqn:E; simpl in H;
        try discriminate.
      ok_inv H. eapply include_file_head; eassumption.
    + ok_inv H. lia.
  - destruct (negb (mem name (defines sh))); ok_inv H; simpl; lia.
  - destruct (mem name (defines sh)); ok_inv H; simpl; lia.
  - ok_inv H; simpl; lia.
  - destruct (negb (exclude loc) && negb (mem name (defines sh)));
      ok_inv H; simpl; lia.
  - destruct (py_last (conditionals sh)) as [top|]; [|discriminate].
    destruct (negb (exclude loc)); [ok_inv H; simpl; lia|].
    destruct (Cond.exclude top); ok_inv H; simpl; lia.
  - match type of H with (bind ?r _ = _) => destruct r; simpl in H end;
      try discriminate.
    destruct (conditionals sh); [discriminate|]. ok_inv H. simpl. lia.
  - destruct (negb (exclude loc) && mem name (defines sh));
      ok_inv H; simpl; lia.
  - ok_inv H. lia.
Qed.

Lemma step_head os incdirs rec content sh loc sh' loc' :
  (forall c s s', rec c s = Ok s' -> length (head s) <= length (head s')) ->
  step os incdirs rec content sh loc = Ok (sh', loc') ->
  length (head sh) <= length (head sh').
Proof.
  intros R H. unfold step in H.
  destruct (search_marker content (pos loc)) as [[[ms me] k]|].
  - destruct k.
    + eapply exec_head; eassumption.
    + destruct (search_quote content me); ok_inv H; simpl; lia.
    + destruct (search_newline content me); ok_inv H; simpl; lia.
    + destruct (search_block_end content me); ok_inv H; simpl; lia.
  - ok_inv H. lia.
Qed.

(** An activation never returns with fewer directories on [self.head]
    than it was entered with. *)
Lemma loop_head os incdirs fuel : forall content sh loc sh' loc',
  loop os incdirs fuel content sh loc = Ok (sh', loc') ->
  length (head sh) <= length (head sh').
Proof.
  induction fuel as [|fuel IH]; intros content sh loc sh' loc' H.
  - simpl in H. destruct (pos loc <? length content); [discriminate|].
    ok_inv H. lia.
  - destruct (Nat.lt_ge_cases (pos loc) (length content)) as [L|L].
    + rewrite loop_step in H by assumption.
      destruct (step os incdirs (nested os incdirs fuel) content sh loc)
        as [[sh1 loc1]| | |] eqn:S; simpl in H; try discriminate.
      apply step_head in S.
      * apply IH in H. lia.
      * intros c s s' N. unfold nested, fmap in N.
        destruct (loop os incdirs fuel c s init_locals) as [[s1 l1]| | |] eqn:E;
          simpl in N; try discriminate.
        ok_inv N. eapply IH. exact E.
    + rewrite loop_done in H by assumption. ok_inv H. lia.
Qed.

(** C4. When the file of an include is found and read and its nested
    scan returns, the iteration of the includer ends in the shared state
    the nested scan ended in (its define table and conditional stack; the
    directory pushed for it popped again), and the regions the nested scan
    collected ([regions loc1]) go nowhere: the includer's regions and
    exclusion cursor are what they were, only [pos] moves past the closing
    double quote. *)
Theorem include_shares_state_discards_regions
        os incdirs fuel content sh loc ms me path e h f c sh1 loc1 :
  search_marker content (pos loc) = Some (ms, me, Backtick) ->
  match_include content ms = Some (path, e) ->
  py_last (head sh) = Some h ->
  located os incdirs h path = Some f ->
  fs os f = Content c ->
  loop os incdirs fuel c
       (with_head (head sh ++ [os_path_split_0 os f]) sh) init_locals
  = Ok (sh1, loc1) ->
  exists sh' loc',
    step os incdirs (nested os incdirs fuel) content sh loc = Ok (sh', loc')
    /\ sh' = with_head (removelast (head sh1)) sh1
    /\ defines sh' = defines sh1
    /\ conditionals sh' = conditionals sh1
    /\ loc' = with_pos (e + 1) loc
    /\ regions loc' = regions loc
    /\ exclude loc' = exclude loc
    /\ exclude_pos_start loc' = exclude_pos_start loc.
Proof.
  intros M I H L F N.
  rewrite (step_include _ _ _ _ _ _ _ _ _ _ _ M I H), L.
  unfold include_file. rewrite F. unfold nested, fmap. rewrite N. simpl.
  apply loop_head in N. simpl in N. rewrite length_app in N. simpl in N.
  destruct (head sh1) eqn:H1; [simpl in N; lia|]. rewrite <- H1.
  eexists. eexists. repeat split.
Qed.

Lemma include_shares_state_discards_regions_witness :
  exists sh' loc',
    step demo_os demo_incdirs (nested demo_os demo_incdirs 5)
         (lit "`include " ++ quoted (lit "defs.vh") ++ nl
          ++ lit "`ifdef X" ++ nl ++ lit "kept" ++ nl ++ lit "`endif" ++ nl)
         demo_shared init_locals
    = Ok (sh', loc')
    /\ sh' = with_head (removelast (head (mkShared [lit "X"] []
                                            [lit "src"; lit "src"] [])))
                       (mkShared [lit "X"] [] [lit "src"; lit "src"] [])
    /\ defines sh' = [lit "X"]
    /\ conditionals sh' = []
    /\ loc' = with_pos (17 + 1) init_locals
    /\ regions loc' = []
    /\ exclude loc' = false
    /\ exclude_pos_start loc' = 0.
Proof.
  apply (include_shares_state_discards_regions
           demo_os demo_incdirs 5
           (lit "`include " ++ quoted (lit "defs.vh") ++ nl
            ++ lit "`ifdef X" ++ nl ++ lit "kept" ++ nl ++ lit "`endif" ++ nl)
           demo_shared init_locals 0 1 (lit "defs.vh") 17 (lit "src")
           (lit "src/defs.vh")
           (lit "`define X" ++ nl ++ lit "`ifdef NOPE" ++ nl
            ++ lit "hidden" ++ nl ++ lit "`endif" ++ nl)
           (mkShared [lit "X"] [] [lit "src"; lit "src"] [])
           (mkLocals 36 false 10 35 [(10, 35)]));
    reflexivity.
Defined.

(** The example of the specification, from the buffer to the regions: the
    included file defines [X], so the [`ifdef X] of the includer excludes
    nothing, and the region the included file has for itself is not
    returned. *)
Example include_defines_for_includer :
  run demo_os demo_incdirs 9 (lit "src")
      (lit "`include " ++ quoted (lit "defs.vh") ++ nl
       ++ lit "`ifdef X" ++ nl ++ lit "kept" ++ nl ++ lit "`endif" ++ nl)
  = Ok ([], mkShared [lit "X"] [] [lit "src"] []).
Proof. reflexivity. Qed.

(** ** Conditionals nested in excluded text *)

Lemma py_last_snoc (A : Type) (l : list A) (x : A) :
  py_last (l ++ [x]) = Some x.
Proof.
  unfold py_last. destruct l as [|y l]; [reflexivity|].
  simpl. f_equal. apply last_last.
Qed.



(** An [`endif] under a frame that does not own the exclusion. *)
Lemma exec_endif_inert os incdirs rec e match_end sh loc top :
  exclude loc = true ->
  py_last (conditionals sh) = Some top ->
  Cond.exclude top = false ->
  exec os incdirs rec (Endif e) match_end sh loc =
  Ok (with_conditionals (removelast (conditionals sh)) sh, with_pos e loc).
Proof.
  intros E P T. simpl. rewrite P, E, T. simpl.
  destruct (conditionals sh); [discriminate|reflexivity].
Qed.

(** An [`endif] or [`else] under the frame that owns the exclusion. *)
Lemma exec_endif_owner os incdirs rec e match_end sh loc top :
  exclude loc = true ->
  py_last (conditionals sh) = Some top ->
  Cond.exclude top = true ->
  exec os incdirs rec (Endif e) match_end sh loc =
  Ok (with_conditionals (removelast (conditionals sh)) sh,
      with_pos e (end_exclusion e loc)).
Proof.
  intros E P T. simpl. rewrite P, E, T. simpl.
  destruct (conditionals sh); [discriminate|reflexivity].
Qed.









(** The same from the first character of the buffer: what the loop
    reads, and the one region of the run. *)
Example nested_conditionals_on_buffer :
  scan 44 (lit "`ifdef A `ifdef B x `else y `endif z `endif ") 0
  = [(1, Ifdef (lit "A") 0 8); (10, Ifdef (lit "B") 9 17); (21, Else 20 25);
     (29, Endif 34); (38, Endif 43)]
  /\ run demo_os demo_incdirs 9 (lit "src")
         (lit "`ifdef A `ifdef B x `else y `endif z `endif ")
     = Ok ([(0, 43)], demo_shared).
Proof. split; reflexivity. Qed.

(** ** String literals *)

Lemma rev_firstn_S (content : str) : forall p x,
  nth_error content p = Some x ->
  rev (firstn (S p) content) = x :: rev (firstn p content).
Proof.
  induction content as [|a l IH]; intros p x H.
  - destruct p; discriminate.
  - destruct p as [|p].
    + simpl in H. inversion H; subst. reflexivity.
    + simpl in H. specialize (IH p x H).
      change (rev (firstn (S p) l) ++ [a] = x :: (rev (firstn p l) ++ [a])).
      rewrite IH. reflexivity.
Qed.

(** The look-behind of line 140 sees a backslash exactly when at least one
    backslash precedes the offset. *)
Lemma lookbehind_backslashes content i :
  i <= length content ->
  (backslashes_before content i = 0 <->
   is_backslash (char_before content i) = false).
Proof.
  intros L. unfold backslashes_before. destruct i as [|p].
  - simpl. tauto.
  - simpl char_before.
    destruct (nth_error content p) as [x|] eqn:N.
    + rewrite (rev_firstn_S content p x N). simpl.
      destruct (Ascii.eqb x backslash); split; intros; congruence.
    + apply nth_error_None in N. lia.
Qed.

Lemma skipn_cons_nth (A : Type) (l : list A) : forall n x l',
  skipn n l = x :: l' -> nth_error l n = Some x /\ skipn (S n) l = l'.
Proof.
  induction l as [|a l IH]; intros n x l' H.
  - destruct n; discriminate.
  - destruct n as [|n].
    + simpl in H. inversion H; subst. auto.
    + simpl in H. apply IH in H. exact H.
Qed.

Lemma find_quote_closes content : forall l from,
  skipn from content = l ->
  match find_quote (char_before content from) l from with
  | Some e =>
      exists i, e = i + 1 /\ from <= i /\ closes content i
                /\ forall j, from <= j < i -> ~ closes content j
  | None => forall j, from <= j -> ~ closes content j
  end.
Proof.
  induction l as [|c l IH]; intros from Sk.
  - simpl. intros j L [N _].
    assert (length content <= from).
    { assert (X : length (skipn from content) = length content - from)
        by apply length_skipn.
      rewrite Sk in X. simpl in X. lia. }
    assert (nth_error content j = None) by (apply nth_error_None; lia).
    congruence.
  - destruct (skipn_cons_nth _ content from c l Sk) as (N & S').
    assert (L : from < length content)
      by (apply nth_error_Some; congruence).
    simpl.
    destruct (Ascii.eqb c dquote && negb (is_backslash (char_before content from)))
      eqn:T.
    + apply andb_prop in T. destruct T as (T1 & T2).
      apply Ascii.eqb_eq in T1. apply negb_true_iff in T2. subst c.
      exists from. split; [lia|]. split; [lia|]. split; [split|].
      * exact N.
      * apply lookbehind_backslashes; [lia|exact T2].
      * intros j Hj. lia.
    + assert (NC : ~ closes content from).
      { intros [C1 C2]. apply lookbehind_backslashes in C2; [|lia].
        rewrite C2 in T. rewrite N in C1. inversion C1; subst.
        rewrite Ascii.eqb_refl in T. discriminate. }
      specialize (IH (S from) S'). simpl char_before in IH. rewrite N in IH.
      destruct (find_quote (Some c) l (S from)) as [e|].
      * destruct IH as (i & I1 & I2 & I3 & I4).
        exists i. split; [lia|]. split; [lia|]. split; [exact I3|].
        intros j Hj. destruct (Nat.eq_dec j from) as [->|D]; [exact NC|].
        apply I4. lia.
      * intros j Hj. destruct (Nat.eq_dec j from) as [->|D]; [exact NC|].
        apply IH. lia.
Qed.

(** What the look-behind of line 140 makes of a string: it is consumed up
    to and including the first double quote, after the opening one, that
    no backslash precedes; without such a double quote the message about
    the string that is not ended is printed and [pos] becomes the length of
    the buffer. *)
Theorem string_ends_at_quote_without_backslash
        os incdirs rec content sh loc ms me :
  search_marker content (pos loc) = Some (ms, me, Quote) ->
  ((exists i,
       me <= i /\ closes content i
       /\ (forall j, me <= j < i -> ~ closes content j)
       /\ step os incdirs rec content sh loc = Ok (sh, with_pos (i + 1) loc))
   \/ ((forall j, me <= j -> ~ closes content j)
       /\ step os incdirs rec content sh loc
          = Ok (print StringNotEnded sh, with_pos (length content) loc)))
  /\ (forall j, backslashes_before content j <> 0 -> ~ closes content j).
Proof.
  intros M. split.
  - unfold step. rewrite M.
    pose proof (find_quote_closes content (skipn me content) me eq_refl) as Q.
    unfold search_quote.
    destruct (find_quote (char_before content me) (skipn me content) me)
      as [e|].
    + left. destruct Q as (i & -> & Q1 & Q2 & Q3). exists i.
      split; [exact Q1|]. split; [exact Q2|]. split; [exact Q3|reflexivity].
    + right. split; [exact Q|reflexivity].
  - intros j B [_ C]. contradiction.
Qed.

Lemma string_ends_at_quote_without_backslash_witness :
  ((exists i,
       1 <= i /\ closes (quoted (lit "a\") ++ quoted (lit " b")) i
       /\ (forall j, 1 <= j < i ->
             ~ closes (quoted (lit "a\") ++ quoted (lit " b")) j)
       /\ step demo_os demo_incdirs no_rec
               (quoted (lit "a\") ++ quoted (lit " b"))
               demo_shared init_locals
          = Ok (demo_shared, with_pos (i + 1) init_locals))
   \/ ((forall j, 1 <= j ->
          ~ closes (quoted (lit "a\") ++ quoted (lit " b")) j)
       /\ step demo_os demo_incdirs no_rec
               (quoted (lit "a\") ++ quoted (lit " b"))
               demo_shared init_locals
          = Ok (print StringNotEnded demo_shared,
                with_pos (length (quoted (lit "a\") ++ quoted (lit " b")))
                         init_locals)))
  /\ (forall j,
        backslashes_before (quoted (lit "a\") ++ quoted (lit " b")) j <> 0 ->
        ~ closes (quoted (lit "a\") ++ quoted (lit " b")) j).
Proof.
  apply (string_ends_at_quote_without_backslash
           demo_os demo_incdirs no_rec
           (quoted (lit "a\") ++ quoted (lit " b"))
           demo_shared init_locals 0 1).
  reflexivity.
Defined.

(** C7 (the code departs from the claim). In the buffer made of a
    double quote, two backslashes, a double quote and [ x], the double
    quote at offset 3 is preceded by two backslashes, an even number: the
    string ends there ([spec_search_quote]).  The look-behind of line 140
    only sees that a backslash precedes it: the scanner prints that the
    string is not ended and consumes the buffer, and a [`define] on the
    next line is never executed. *)
Theorem string_even_backslashes_not_closed :
  nth_error (quoted (lit "\\") ++ lit " x") 3 = Some dquote
  /\ backslashes_before (quoted (lit "\\") ++ lit " x") 3 = 2
  /\ spec_search_quote (quoted (lit "\\") ++ lit " x") 1 = Some 4
  /\ search_quote (quoted (lit "\\") ++ lit " x") 1 = None
  /\ step demo_os demo_incdirs no_rec (quoted (lit "\\") ++ lit " x")
          demo_shared init_locals
     = Ok (print StringNotEnded demo_shared, with_pos 6 init_locals)
  /\ run demo_os demo_incdirs 9 (lit "src")
         (quoted (lit "\\") ++ nl ++ lit "`define A" ++ nl)
     = Ok ([], mkShared [] [] [lit "src"] [StringNotEnded]).
Proof. repeat split. Qed.

(** C6 (the code departs from the claim). Two string literals, the
    first ending in an escaped backslash: a double quote, two backslashes,
    a double quote; a space; a double quote, [`define A], a double quote.
    The first literal is offsets 0 to 3 and the second 5 to 15, so the
    backtick at offset 6 is inside a string literal.  The scanner, by the
    look-behind of line 140, ends the first string at offset 5 instead,
    dispatches the [`define] at offset 6 and defines [A]. *)
Theorem directive_inside_string_is_executed :
  spec_search_quote (quoted (lit "\\") ++ lit " " ++ quoted (lit "`define A")
                     ++ nl) 1 = Some 4
  /\ nth_error (quoted (lit "\\") ++ lit " " ++ quoted (lit "`define A")
                ++ nl) 5 = Some dquote
  /\ spec_search_quote (quoted (lit "\\") ++ lit " "
                        ++ quoted (lit "`define A") ++ nl) 6 = Some 16
  /\ search_quote (quoted (lit "\\") ++ lit " " ++ quoted (lit "`define A")
                   ++ nl) 1 = Some 6
  /\ next_dispatch (quoted (lit "\\") ++ lit " "
                    ++ quoted (lit "`define A") ++ nl) 6
     = Some (7, Define (lit "A") 15)
  /\ run demo_os demo_incdirs 9 (lit "src")
         (quoted (lit "\\") ++ lit " " ++ quoted (lit "`define A") ++ nl)
     = Ok ([], mkShared [lit "A"] [] [lit "src"] [StringNotEnded]).
Proof. repeat split. Qed.

(* ================================================================= *)
(** * Further properties of the scanning loop *)

(** ** Which text makes which directive *)

Lemma occurs_here p l rest :
  starts_with p l = Some rest -> occurs p l = true.
Proof. intros H. destruct l; simpl; rewrite H; reflexivity. Qed.

Lemma occurs_skipn p : forall l n rest,
  starts_with p (skipn n l) = Some rest -> occurs p l = true.
Proof.
  induction l as [|a l IH]; intros n rest H.
  - destruct n; simpl in H; apply (occurs_here _ _ _ H).
  - destruct n as [|n].
    + apply (occurs_here _ _ _ H).
    + simpl in H. apply IH in H. simpl.
      destruct (starts_with p (a :: l)); [reflexivity|exact H].
Qed.

Lemma starts_with_prefix p q : forall l rest,
  starts_with (p ++ q) l = Some rest -> exists rest', starts_with p l = Some rest'.
Proof.
  induction p as [|a p IH]; intros l rest H; simpl in *.
  - eauto.
  - destruct l as [|b l]; [discriminate|].
    destruct (Ascii.eqb a b); [|discriminate]. eapply IH. exact H.
Qed.

Lemma match_include_occurs content ms path e :
  match_include content ms = Some (path, e) ->
  occurs (lit "`include ") content = true.
Proof.
  unfold match_include.
  destruct (starts_with _ _) as [rest|] eqn:S; [|discriminate]. intros _.
  apply starts_with_prefix in S. destruct S as (r & S).
  apply (occurs_skipn _ _ _ _ S).
Qed.

Lemma match_define_occurs content ms name e :
  match_define content ms = Some (name, e) ->
  occurs (lit "`define ") content = true.
Proof.
  unfold match_define.
  destruct (starts_with _ _) as [rest|] eqn:S; [|discriminate]. intros _.
  apply (occurs_skipn _ _ _ _ S).
Qed.

Lemma match_keyword_name_occurs kw content ms name e :
  match_keyword_name kw content ms = Some (name, e) ->
  occurs kw content = true.
Proof.
  unfold match_keyword_name.
  destruct (starts_with _ _) as [rest|] eqn:S; [|discriminate]. intros _.
  apply (occurs_skipn _ _ _ _ S).
Qed.

Lemma match_keyword_occurs kw content ms e :
  match_keyword kw content ms = Some e -> occurs kw content = true.
Proof.
  unfold match_keyword.
  destruct (starts_with _ _) as [rest|] eqn:S; [|discriminate]. intros _.
  apply (occurs_skipn _ _ _ _ S).
Qed.

(** The keyword a recognised directive was read from is in the buffer. *)
Lemma recognise_occurs content ms :
  match recognise content ms with
  | Include _ _ => occurs (lit "`include ") content = true
  | Define _ _ => occurs (lit "`define ") content = true
  | Undef _ _ => occurs (lit "`undef") content = true
  | Resetall _ => occurs (lit "`resetall") content = true
  | Ifdef _ _ _ => occurs (lit "`ifdef") content = true
  | Else _ _ => occurs (lit "`else") content = true
  | Endif _ => occurs (lit "`endif") content = true
  | Ifndef _ _ _ => occurs (lit "`ifndef") content = true
  | Passthrough => True
  end.
Proof.
  unfold recognise.
  destruct (match_include _ _) as [[p e]|] eqn:E1.
  { eapply match_include_occurs; exact E1. }
  destruct (match_define _ _) as [[n e]|] eqn:E2.
  { eapply match_define_occurs; exact E2. }
  destruct (match_undef _ _) as [[n e]|] eqn:E3.
  { eapply match_keyword_name_occurs; exact E3. }
  destruct (match_resetall _ _) as [e|] eqn:E4.
  { eapply match_keyword_occurs; exact E4. }
  destruct (match_ifdef _ _) as [[n e]|] eqn:E5.
  { eapply match_keyword_name_occurs; exact E5. }
  destruct (match_else _ _) as [e|] eqn:E6.
  { eapply match_keyword_occurs; exact E6. }
  destruct (match_endif _ _) as [e|] eqn:E7.
  { eapply match_keyword_occurs; exact E7. }
  destruct (match_ifndef _ _) as [[n e]|] eqn:E8.
  { eapply match_keyword_name_occurs; exact E8. }
  exact I.
Qed.

Lemma recognise_not_include content ms path e :
  occurs (lit "`include ") content = false ->
  recognise content ms <> Include path e.
Proof.
  intros O R. pose proof (recognise_occurs content ms) as X.
  rewrite R in X. congruence.
Qed.

(** ** Progress of one iteration *)

Lemma step_progress
        os incdirs rec content sh loc sh' loc' :
  pos loc < length content ->
  step os incdirs rec content sh loc = Ok (sh', loc') ->
  pos loc < pos loc'
  \/ (sh' = sh /\ loc' = loc
      /\ exists ms me name e,
           search_marker content (pos loc) = Some (ms, me, Backtick)
           /\ ((recognise content ms = Define name e
                /\ mem name (defines sh) = true)
               \/ (recognise content ms = Undef name e
                   /\ mem name (defines sh) = false))).
Proof.
  intros L H. unfold step in H.
  destruct (search_marker content (pos loc)) as [[[ms me] k]|] eqn:M.
  - pose proof (search_marker_bounds _ _ _ _ _ M) as (M1 & M2 & M3).
    destruct k.
    + pose proof (recognise_within content ms) as W.
      destruct (recognise content ms)
        as [path e|name e|name e|e|name s e|s e|e|name s e|] eqn:R;
        simpl in W, H.
      * destruct (py_last (head sh)); [|discriminate].
        match type of H with (bind ?r _ = _) => destruct r; simpl in H end;
          try discriminate.
        ok_inv H. left. simpl. lia.
      * destruct (mem name (defines sh)) eqn:D; simpl in H; ok_inv H.
        -- right. repeat split. exists ms, me, name, e. auto.
        -- left. simpl. lia.
      * destruct (mem name (defines sh)) eqn:D; simpl in H; ok_inv H.
        -- left. simpl. lia.
        -- right. repeat split. exists ms, me, name, e. auto.
      * ok_inv H. left. simpl. lia.
      * destruct (negb (exclude loc) && negb (mem name (defines sh)));
          ok_inv H; left; simpl; lia.
      * destruct (py_last (conditionals sh)) as [top|]; [|discriminate].
        destruct (negb (exclude loc)); [ok_inv H; left; simpl; lia|].
        destruct (Cond.exclude top); ok_inv H; left; simpl; lia.
      * match type of H with (bind ?r _ = _) => destruct r; simpl in H end;
          try discriminate.
        destruct (conditionals sh); [discriminate|].
        ok_inv H. left. simpl. lia.
      * destruct (negb (exclude loc) && mem name (defines sh));
          ok_inv H; left; simpl; lia.
      * ok_inv H. left. simpl. lia.
    + destruct (search_quote content me) as [e|] eqn:Q;
        [apply search_quote_bounds in Q|]; ok_inv H; left; simpl; lia.
    + destruct (search_newline content me) as [e|] eqn:Q;
        [apply search_newline_bounds in Q|]; ok_inv H; left; simpl; lia.
    + destruct (search_block_end content me) as [e|] eqn:Q;
        [apply search_block_end_bounds in Q|]; ok_inv H; left; simpl; lia.
  - ok_inv H. left. simpl. lia.
Qed.

(** X1. An iteration that returns moves [pos] strictly forward, with one
    exception: a [`define] of a name already defined or an [`undef] of a
    name not defined, which returns the state exactly as it was. *)
Theorem iteration_advances_or_is_stuck
        os incdirs rec content sh loc sh' loc' :
  pos loc < length content ->
  step os incdirs rec content sh loc = Ok (sh', loc') ->
  pos loc < pos loc'
  \/ (sh' = sh /\ loc' = loc
      /\ exists ms me name e,
           search_marker content (pos loc) = Some (ms, me, Backtick)
           /\ ((recognise content ms = Define name e
                /\ mem name (defines sh) = true)
               \/ (recognise content ms = Undef name e
                   /\ mem name (defines sh) = false))).
Proof. exact (step_progress os incdirs rec content sh loc sh' loc'). Qed.

Lemma iteration_advances_or_is_stuck_witness :
  pos init_locals < pos (mkLocals 8 true 0 0 [])
  \/ (mkShared [] [Cond.mk false true] [lit "src"] [] = demo_shared
      /\ mkLocals 8 true 0 0 [] = init_locals
      /\ exists ms me name e,
           search_marker (lit "`ifdef A ") (pos init_locals)
           = Some (ms, me, Backtick)
           /\ ((recognise (lit "`ifdef A ") ms = Define name e
                /\ mem name (defines demo_shared) = true)
               \/ (recognise (lit "`ifdef A ") ms = Undef name e
                   /\ mem name (defines demo_shared) = false))).
Proof.
  apply (iteration_advances_or_is_stuck demo_os demo_incdirs no_rec
           (lit "`ifdef A ") demo_shared init_locals
           (mkShared [] [Cond.mk false true] [lit "src"] [])
           (mkLocals 8 true 0 0 [])).
  - simpl. lia.
  - reflexivity.
Defined.

(** An iteration that does not execute an include asks nothing of the
    nested activation: it never runs out of fuel. *)
Lemma step_has_fuel os incdirs rec content sh loc :
  occurs (lit "`include ") content = false ->
  step os incdirs rec content sh loc <> OutOfFuel.
Proof.
  intros O. unfold step.
  destruct (search_marker content (pos loc)) as [[[ms me] k]|];
    [|discriminate].
  destruct k.
  - pose proof (recognise_not_include content ms) as NI.
    destruct (recognise content ms)
      as [path e|name e|name e|e|name s e|s e|e|name s e|]; simpl.
    + exfalso. eapply NI; eauto.
    + destruct (negb (mem name (defines sh))); discriminate.
    + destruct (mem name (defines sh)); discriminate.
    + discriminate.
    + destruct (negb (exclude loc) && negb (mem name (defines sh)));
        discriminate.
    + destruct (py_last (conditionals sh)) as [top|]; [|discriminate].
      destruct (negb (exclude loc)); [discriminate|].
      destruct (Cond.exclude top); discriminate.
    + destruct (exclude loc); simpl.
      * destruct (py_last (conditionals sh)) as [top|]; [|discriminate].
        destruct (Cond.exclude top); simpl;
          destruct (conditionals sh); discriminate.
      * destruct (conditionals sh); discriminate.
    + destruct (negb (exclude loc) && mem name (defines sh)); discriminate.
    + discriminate.
  - destruct (search_quote content me); discriminate.
  - destruct (search_newline content me); discriminate.
  - destruct (search_block_end content me); discriminate.
Qed.

(** Nor does it read a file. *)
Lemma step_reads_no_file os incdirs rec content sh loc :
  occurs (lit "`include ") content = false ->
  step os incdirs rec content sh loc <> UnicodeDecodeError.
Proof.
  intros O. unfold step.
  destruct (search_marker content (pos loc)) as [[[ms me] k]|];
    [|discriminate].
  destruct k.
  - pose proof (recognise_not_include content ms) as NI.
    destruct (recognise content ms)
      as [path e|name e|name e|e|name s e|s e|e|name s e|]; simpl.
    + exfalso. eapply NI; eauto.
    + destruct (negb (mem name (defines sh))); discriminate.
    + destruct (mem name (defines sh)); discriminate.
    + discriminate.
    + destruct (negb (exclude loc) && negb (mem name (defines sh)));
        discriminate.
    + destruct (py_last (conditionals sh)) as [top|]; [|discriminate].
      destruct (negb (exclude loc)); [discriminate|].
      destruct (Cond.exclude top); discriminate.
    + destruct (exclude loc); simpl.
      * destruct (py_last (conditionals sh)) as [top|]; [|discriminate].
        destruct (Cond.exclude top); simpl;
          destruct (conditionals sh); discriminate.
      * destruct (conditionals sh); discriminate.
    + destruct (negb (exclude loc) && mem name (defines sh)); discriminate.
    + discriminate.
  - destruct (search_quote content me); discriminate.
  - destruct (search_newline content me); discriminate.
  - destruct (search_block_end content me); discriminate.
Qed.

(** X2. A buffer that holds neither [`define ], [`undef] nor
    [`include ] is scanned in at most as many iterations as characters are
    left: with that much fuel the loop returns or raises, it never runs
    out of fuel. *)
Theorem loop_terminates_without_define_undef_include
        os incdirs content :
  occurs (lit "`define ") content = false ->
  occurs (lit "`undef") content = false ->
  occurs (lit "`include ") content = false ->
  forall fuel sh loc,
    length content - pos loc <= fuel ->
    loop os incdirs fuel content sh loc <> OutOfFuel.
Proof.
  intros OD OU OI fuel.
  induction fuel as [|fuel IH]; intros sh loc F.
  - rewrite loop_done by lia. discriminate.
  - destruct (Nat.lt_ge_cases (pos loc) (length content)) as [L|L].
    + rewrite loop_step by assumption.
      destruct (step os incdirs (nested os incdirs fuel) content sh loc)
        as [[sh1 loc1]| | |] eqn:S; simpl.
      * apply IH.
        destruct (step_progress _ _ _ _ _ _ _ _ L S)
          as [P|(_ & _ & ms & me & name & e & M & [[R _]|[R _]])].
        -- lia.
        -- pose proof (recognise_occurs content ms) as X.
           rewrite R in X. congruence.
        -- pose proof (recognise_occurs content ms) as X.
           rewrite R in X. congruence.
      * discriminate.
      * exfalso. eapply step_has_fuel; eassumption.
      * discriminate.
    + rewrite loop_done by lia. discriminate.
Qed.

Lemma loop_terminates_without_define_undef_include_witness :
  loop demo_os demo_incdirs 30
       (lit "`ifdef A /* x */ `endif ") demo_shared init_locals
  <> OutOfFuel.
Proof.
  apply (loop_terminates_without_define_undef_include
           demo_os demo_incdirs (lit "`ifdef A /* x */ `endif ")
           eq_refl eq_refl eq_refl 30 demo_shared init_locals).
  simpl. lia.
Defined.

(** ** Where regions come from *)

Lemma step_regions
        os incdirs rec content sh loc sh' loc' :
  step os incdirs rec content sh loc = Ok (sh', loc') ->
  regions loc' = regions loc
  \/ (exclude loc = true /\ exclude loc' = false
      /\ exists ms me e,
           search_marker content (pos loc) = Some (ms, me, Backtick)
           /\ ((recognise content ms = Else ms e
                /\ regions loc' = regions loc ++ [(exclude_pos_start loc, ms)])
               \/ (recognise content ms = Endif e
                   /\ regions loc' =
                      regions loc ++ [(exclude_pos_start loc, e)]))).
Proof.
  intros H. unfold step in H.
  destruct (search_marker content (pos loc)) as [[[ms me] k]|] eqn:M.
  - destruct k.
    + pose proof (recognise_within content ms) as W.
      destruct (recognise content ms)
        as [path e|name e|name e|e|name s e|s e|e|name s e|] eqn:R;
        simpl in W, H.
      * destruct (py_last (head sh)); [|discriminate].
        match type of H with (bind ?r _ = _) => destruct r; simpl in H end;
          try discriminate.
        ok_inv H. left. reflexivity.
      * destruct (negb (mem name (defines sh))); ok_inv H; left; reflexivity.
      * destruct (mem name (defines sh)); ok_inv H; left; reflexivity.
      * ok_inv H. left. reflexivity.
      * destruct (negb (exclude loc) && negb (mem name (defines sh)));
          ok_inv H; left; reflexivity.
      * destruct W as (-> & _).
        destruct (py_last (conditionals sh)) as [top|]; [|discriminate].
        destruct (exclude loc) eqn:E; simpl in H;
          [|ok_inv H; left; reflexivity].
        destruct (Cond.exclude top); ok_inv H; [|left; reflexivity].
        right. repeat split. exists ms, me, e. split; [reflexivity|].
        left. split; [exact R|reflexivity].
      * destruct (exclude loc) eqn:E; simpl in H.
        -- destruct (py_last (conditionals sh)) as [top|]; [|discriminate].
           destruct (Cond.exclude top); simpl in H;
             destruct (conditionals sh); try discriminate; ok_inv H;
             [|left; reflexivity].
           right. repeat split. exists ms, me, e. split; [reflexivity|].
           right. split; [exact R|reflexivity].
        -- destruct (conditionals sh); [discriminate|].
           ok_inv H. left. reflexivity.
      * destruct (negb (exclude loc) && mem name (defines sh));
          ok_inv H; left; reflexivity.
      * ok_inv H. left. reflexivity.
    + destruct (search_quote content me); ok_inv H; left; reflexivity.
    + destruct (search_newline content me); ok_inv H; left; reflexivity.
    + destruct (search_block_end content me); ok_inv H; left; reflexivity.
  - ok_inv H. left. reflexivity.
Qed.

(** X3. An iteration leaves the regions as they are or appends exactly
    one; it appends only while excluding, on an [`else] or an [`endif],
    and the region starts where the exclusion began and ends at the start
    of that [`else] or at the end of that [`endif]. *)
Theorem region_only_from_else_or_endif
        os incdirs rec content sh loc sh' loc' :
  step os incdirs rec content sh loc = Ok (sh', loc') ->
  regions loc' = regions loc
  \/ (exclude loc = true /\ exclude loc' = false
      /\ exists ms me e,
           search_marker content (pos loc) = Some (ms, me, Backtick)
           /\ ((recognise content ms = Else ms e
                /\ regions loc' = regions loc ++ [(exclude_pos_start loc, ms)])
               \/ (recognise content ms = Endif e
                   /\ regions loc' =
                      regions loc ++ [(exclude_pos_start loc, e)]))).
Proof. exact (step_regions os incdirs rec content sh loc sh' loc'). Qed.

Lemma region_only_from_else_or_endif_witness :
  regions (with_pos 14 (end_exclusion 14 (mkLocals 8 true 0 0 []))) = []
  \/ (true = true
      /\ exclude (with_pos 14 (end_exclusion 14 (mkLocals 8 true 0 0 [])))
         = false
      /\ exists ms me e,
           search_marker (lit "`ifdef A`endif ") 8 = Some (ms, me, Backtick)
           /\ ((recognise (lit "`ifdef A`endif ") ms = Else ms e
                /\ regions (with_pos 14 (end_exclusion 14
                                           (mkLocals 8 true 0 0 [])))
                   = [] ++ [(0, ms)])
               \/ (recognise (lit "`ifdef A`endif ") ms = Endif e
                   /\ regions (with_pos 14 (end_exclusion 14
                                              (mkLocals 8 true 0 0 [])))
                      = [] ++ [(0, e)]))).
Proof.
  apply (region_only_from_else_or_endif demo_os demo_incdirs no_rec
           (lit "`ifdef A`endif ")
           (mkShared [] [Cond.mk false true] [lit "src"] [])
           (mkLocals 8 true 0 0 [])
           (mkShared [] [] [lit "src"] [])
           (with_pos 14 (end_exclusion 14 (mkLocals 8 true 0 0 [])))).
  reflexivity.
Defined.

Lemma loop_no_regions os incdirs content :
  occurs (lit "`else") content = false ->
  occurs (lit "`endif") content = false ->
  forall fuel sh loc sh' loc',
    regions loc = [] ->
    loop os incdirs fuel content sh loc = Ok (sh', loc') ->
    regions loc' = [].
Proof.
  intros OE OF fuel.
  induction fuel as [|fuel IH]; intros sh loc sh' loc' R H.
  - simpl in H. destruct (pos loc <? length content); [discriminate|].
    ok_inv H. assumption.
  - destruct (Nat.lt_ge_cases (pos loc) (length content)) as [L|L].
    + rewrite loop_step in H by assumption.
      destruct (step os incdirs (nested os incdirs fuel) content sh loc)
        as [[sh1 loc1]| | |] eqn:S; simpl in H; try discriminate.
      apply (IH sh1 loc1 sh' loc'); [|exact H].
      destruct (step_regions _ _ _ _ _ _ _ _ S)
        as [E|(_ & _ & ms & me & e & M & [[X _]|[X _]])].
      * congruence.
      * pose proof (recognise_occurs content ms) as Y.
        rewrite X in Y. congruence.
      * pose proof (recognise_occurs content ms) as Y.
        rewrite X in Y. congruence.
    + rewrite loop_done in H by assumption. ok_inv H. assumption.
Qed.

(** X4. A buffer that holds neither [`else] nor [`endif] never yields a
    region, whatever it includes: an [`ifdef] of an undefined name that is
    never closed excludes the text up to the end of the buffer, and that
    exclusion is not reported. *)
Theorem no_region_without_else_or_endif
        os incdirs fuel content sh regs sh' :
  occurs (lit "`else") content = false ->
  occurs (lit "`endif") content = false ->
  preproc os incdirs fuel content sh = Ok (regs, sh') ->
  regs = [].
Proof.
  intros OE OF H. unfold preproc in H.
  destruct (loop os incdirs fuel content sh init_locals)
    as [[sh1 loc1]| | |] eqn:L; simpl in H; try discriminate.
  ok_inv H. eapply loop_no_regions; [exact OE|exact OF| |exact L].
  reflexivity.
Qed.

Lemma no_region_without_else_or_endif_witness :
  @nil region = [].
Proof.
  apply (no_region_without_else_or_endif demo_os demo_incdirs 5
           (lit "`ifdef A" ++ nl ++ lit "never closed" ++ nl)
           demo_shared []
           (mkShared [] [Cond.mk false true] [lit "src"] []));
    reflexivity.
Defined.

(** ** Errors and diagnostics of a buffer without includes *)

Lemma step_no_index_error os incdirs rec content sh loc :
  occurs (lit "`else") content = false ->
  occurs (lit "`endif") content = false ->
  occurs (lit "`include ") content = false ->
  step os incdirs rec content sh loc <> IndexError.
Proof.
  intros OE OF OI. unfold step.
  destruct (search_marker content (pos loc)) as [[[ms me] k]|];
    [|discriminate].
  destruct k.
  - pose proof (recognise_occurs content ms) as X.
    destruct (recognise content ms)
      as [path e|name e|name e|e|name s e|s e|e|name s e|]; simpl;
      try congruence.
    + destruct (negb (mem name (defines sh))); discriminate.
    + destruct (mem name (defines sh)); discriminate.
    + destruct (negb (exclude loc) && negb (mem name (defines sh)));
        discriminate.
    + destruct (negb (exclude loc) && mem name (defines sh)); discriminate.
  - destruct (search_quote content me); discriminate.
  - destruct (search_newline content me); discriminate.
  - destruct (search_block_end content me); discriminate.
Qed.

(** X5. A buffer with no [`define ], [`undef], [`include ], [`else] and
    [`endif] is always scanned to its end: with fuel for one iteration per
    character the run returns, and it returns no region. *)
Theorem plain_buffer_returns os incdirs content fuel sh :
  occurs (lit "`define ") content = false ->
  occurs (lit "`undef") content = false ->
  occurs (lit "`include ") content = false ->
  occurs (lit "`else") content = false ->
  occurs (lit "`endif") content = false ->
  length content <= fuel ->
  exists sh', preproc os incdirs fuel content sh = Ok ([], sh').
Proof.
  intros OD OU OI OE OF F.
  assert (G : forall fuel sh loc,
             length content - pos loc <= fuel ->
             exists r, loop os incdirs fuel content sh loc = Ok r).
  { clear fuel sh F. intros fuel.
    induction fuel as [|fuel IH]; intros sh loc F.
    - rewrite loop_done by lia. eauto.
    - destruct (Nat.lt_ge_cases (pos loc) (length content)) as [L|L].
      + rewrite loop_step by assumption.
        destruct (step os incdirs (nested os incdirs fuel) content sh loc)
          as [[sh1 loc1]| | |] eqn:S; simpl.
        * apply IH.
          destruct (step_progress _ _ _ _ _ _ _ _ L S)
            as [P|(_ & _ & ms & me & name & e & M & [[R _]|[R _]])].
          -- lia.
          -- pose proof (recognise_occurs content ms) as X.
             rewrite R in X. congruence.
          -- pose proof (recognise_occurs content ms) as X.
             rewrite R in X. congruence.
        * exfalso. eapply step_no_index_error; eassumption.
        * exfalso. eapply step_has_fuel; eassumption.
        * exfalso. eapply step_reads_no_file; eassumption.
      + rewrite loop_done by lia. eauto. }
  destruct (G fuel sh init_locals) as ([sh1 loc1] & L); [simpl; lia|].
  exists sh1. unfold preproc. rewrite L. simpl.
  rewrite (loop_no_regions os incdirs content OE OF fuel sh init_locals
             sh1 loc1 eq_refl L).
  reflexivity.
Qed.

Lemma plain_buffer_returns_witness :
  exists sh',
    preproc demo_os demo_incdirs 40
            (lit "`ifdef A // tail" ++ nl ++ lit "`resetall `ifndef B")
            demo_shared
    = Ok ([], sh').
Proof.
  apply (plain_buffer_returns demo_os demo_incdirs
           (lit "`ifdef A // tail" ++ nl ++ lit "`resetall `ifndef B")
           40 demo_shared eq_refl eq_refl eq_refl eq_refl eq_refl).
  simpl. lia.
Defined.

(** An iteration that does not execute an include is the same whatever
    the nested activation would do. *)
Lemma step_any_rec os incdirs rec rec' content sh loc :
  occurs (lit "`include ") content = false ->
  step os incdirs rec content sh loc = step os incdirs rec' content sh loc.
Proof.
  intros OI. unfold step.
  destruct (search_marker content (pos loc)) as [[[ms me] k]|];
    [|reflexivity].
  destruct k; try reflexivity.
  pose proof (recognise_not_include content ms) as NI.
  destruct (recognise content ms)
    as [path e|name e|name e|e|name s e|s e|e|name s e|]; try reflexivity.
  exfalso. eapply NI; eauto.
Qed.

Lemma step_stdout os incdirs rec content sh loc sh' loc' :
  occurs (lit "`include ") content = false ->
  step os incdirs rec content sh loc = Ok (sh', loc') ->
  stdout sh' = stdout sh
  \/ (pos loc' = length content
      /\ exists d, not_ended d = true /\ stdout sh' = stdout sh ++ [d]).
Proof.
  intros OI H. unfold step in H.
  destruct (search_marker content (pos loc)) as [[[ms me] k]|].
  - destruct k.
    + pose proof (recognise_not_include content ms) as NI.
      destruct (recognise content ms)
        as [path e|name e|name e|e|name s e|s e|e|name s e|];
        simpl in H.
      * exfalso. eapply NI; eauto.
      * destruct (negb (mem name (defines sh))); ok_inv H; left; reflexivity.
      * destruct (mem name (defines sh)); ok_inv H; left; reflexivity.
      * ok_inv H. left. reflexivity.
      * destruct (negb (exclude loc) && negb (mem name (defines sh)));
          ok_inv H; left; reflexivity.
      * destruct (py_last (conditionals sh)) as [top|]; [|discriminate].
        destruct (negb (exclude loc)); [ok_inv H; left; reflexivity|].
        destruct (Cond.exclude top); ok_inv H; left; reflexivity.
      * match type of H with (bind ?r _ = _) => destruct r; simpl in H end;
          try discriminate.
        destruct (conditionals sh); [discriminate|].
        ok_inv H. left. reflexivity.
      * destruct (negb (exclude loc) && mem name (defines sh));
          ok_inv H; left; reflexivity.
      * ok_inv H. left. reflexivity.
    + destruct (search_quote content me); ok_inv H;
        [left; reflexivity|right].
      split; [reflexivity|]. exists StringNotEnded. split; reflexivity.
    + destruct (search_newline content me); ok_inv H;
        [left; reflexivity|right].
      split; [reflexivity|]. exists LineCommentNotEnded. split; reflexivity.
    + destruct (search_block_end content me); ok_inv H;
        [left; reflexivity|right].
      split; [reflexivity|]. exists BlockCommentNotEnded. split; reflexivity.
  - ok_inv H. left. reflexivity.
Qed.

(** X6. The [while] loop (lines 113-263) on a buffer without includes
    prints at most one message of its own, one of the three about a
    comment or string that is not ended, and printing it is the last thing
    the loop does: the message comes from its last iteration, which sets
    [pos] to the length of the buffer, and nothing was printed before it.
    (What [settings.incdirs()] prints at line 104, before the loop, is not
    counted here.) *)
Theorem at_most_one_diagnostic os incdirs content fuel :
  occurs (lit "`include ") content = false ->
  forall sh loc sh' loc',
    loop os incdirs fuel content sh loc = Ok (sh', loc') ->
    stdout sh' = stdout sh
    \/ exists d sh1 loc1,
         not_ended d = true
         /\ stdout sh1 = stdout sh
         /\ (forall rec, step os incdirs rec content sh1 loc1 = Ok (sh', loc'))
         /\ stdout sh' = stdout sh ++ [d]
         /\ pos loc' = length content.
Proof.
  intros OI. induction fuel as [|fuel IH]; intros sh loc sh' loc' H.
  - simpl in H. destruct (pos loc <? length content); [discriminate|].
    ok_inv H. left. reflexivity.
  - destruct (Nat.lt_ge_cases (pos loc) (length content)) as [L|L].
    + rewrite loop_step in H by assumption.
      destruct (step os incdirs (nested os incdirs fuel) content sh loc)
        as [[sh1 loc1]| | |] eqn:S; simpl in H; try discriminate.
      destruct (step_stdout _ _ _ _ _ _ _ _ OI S) as [E|(P & d & D & E)].
      * rewrite <- E. eapply IH. exact H.
      * rewrite loop_done in H by lia. ok_inv H. right.
        exists d, sh, loc. repeat split; try assumption.
        intros rec. rewrite <- S. apply step_any_rec. exact OI.
    + rewrite loop_done in H by assumption. ok_inv H. left. reflexivity.
Qed.

Lemma at_most_one_diagnostic_witness :
  stdout (mkShared [] [] [lit "src"] [BlockCommentNotEnded])
  = stdout demo_shared
  \/ exists d sh1 loc1,
       not_ended d = true
       /\ stdout sh1 = stdout demo_shared
       /\ (forall rec,
             step demo_os demo_incdirs rec (lit "// one" ++ nl ++ lit "/* two")
                  sh1 loc1
             = Ok (mkShared [] [] [lit "src"] [BlockCommentNotEnded],
                   with_pos 13 init_locals))
       /\ stdout (mkShared [] [] [lit "src"] [BlockCommentNotEnded])
          = stdout demo_shared ++ [d]
       /\ pos (with_pos 13 init_locals)
          = length (lit "// one" ++ nl ++ lit "/* two").
Proof.
  apply (at_most_one_diagnostic demo_os demo_incdirs
           (lit "// one" ++ nl ++ lit "/* two") 9 eq_refl
           demo_shared init_locals
           (mkShared [] [] [lit "src"] [BlockCommentNotEnded])
           (with_pos 13 init_locals)).
  reflexivity.
Defined.

(** ** The define table as a set *)

Lemma str_eqb_eq a : forall b, str_eqb a b = true <-> a = b.
Proof.
  induction a as [|x a IH]; intros [|y b]; simpl; split; intros H;
    try discriminate; try reflexivity.
  - apply andb_prop in H. destruct H as (H1 & H2).
    apply Ascii.eqb_eq in H1. apply IH in H2. congruence.
  - inversion H; subst. rewrite Ascii.eqb_refl. simpl. apply IH. reflexivity.
Qed.

Lemma str_eqb_refl a : str_eqb a a = true.
Proof. apply str_eqb_eq. reflexivity. Qed.

Lemma str_eqb_neq a b : str_eqb a b = false <-> a <> b.
Proof.
  split.
  - intros H E. apply str_eqb_eq in E. congruence.
  - intros H. destruct (str_eqb a b) eqn:E; [|reflexivity].
    apply str_eqb_eq in E. contradiction.
Qed.

Lemma str_eqb_sym a b : str_eqb a b = str_eqb b a.
Proof.
  destruct (str_eqb a b) eqn:E.
  - apply str_eqb_eq in E. subst. symmetry. apply str_eqb_refl.
  - symmetry. apply str_eqb_neq. apply str_eqb_neq in E. congruence.
Qed.

Lemma mem_In name l : mem name l = true <-> In name l.
Proof.
  unfold mem. rewrite existsb_exists. split.
  - intros (x & H1 & H2). apply str_eqb_eq in H2. subst. exact H1.
  - intros H. exists name. split; [exact H|apply str_eqb_refl].
Qed.

Lemma mem_false name l : mem name l = false <-> ~ In name l.
Proof.
  split.
  - intros H I. apply mem_In in I. congruence.
  - intros H. destruct (mem name l) eqn:E; [|reflexivity].
    apply mem_In in E. contradiction.
Qed.

Lemma mem_app x l n : mem x (l ++ [n]) = mem x l || str_eqb x n.
Proof.
  unfold mem. rewrite existsb_app. simpl. rewrite orb_false_r. reflexivity.
Qed.

Lemma remove_first_In x n : forall l,
  In x (remove_first n l) -> In x l.
Proof.
  induction l as [|y l IH]; simpl; [tauto|].
  destruct (str_eqb y n); simpl; intuition.
Qed.

Lemma remove_first_NoDup n : forall l,
  NoDup l -> NoDup (remove_first n l).
Proof.
  induction l as [|y l IH]; intros H; simpl; [constructor|].
  inversion H; subst.
  destruct (str_eqb y n); [assumption|].
  constructor; [|apply IH; assumption].
  intros I. apply remove_first_In in I. contradiction.
Qed.

Lemma mem_remove_first x n : forall l,
  NoDup l ->
  mem x (remove_first n l) = negb (str_eqb x n) && mem x l.
Proof.
  induction l as [|y l IH]; intros H; simpl.
  - rewrite andb_false_r. reflexivity.
  - inversion H; subst.
    destruct (str_eqb y n) eqn:E.
    + apply str_eqb_eq in E. subst y.
      destruct (str_eqb x n) eqn:F; simpl.
      * apply str_eqb_eq in F. subst x. apply mem_false. assumption.
      * reflexivity.
    + simpl. rewrite IH by assumption.
      destruct (str_eqb x y) eqn:F; simpl; [|reflexivity].
      apply str_eqb_eq in F. subst y. rewrite E. reflexivity.
Qed.

Lemma exec_define_table os incdirs rec name e match_end sh loc x :
  NoDup (defines sh) ->
  (forall sh1 loc1,
      exec os incdirs rec (Define name e) match_end sh loc = Ok (sh1, loc1) ->
      mem x (defines sh1) = str_eqb x name || mem x (defines sh)
      /\ NoDup (defines sh1))
  /\ (forall sh1 loc1,
        exec os incdirs rec (Undef name e) match_end sh loc = Ok (sh1, loc1) ->
        mem x (defines sh1) = negb (str_eqb x name) && mem x (defines sh)
        /\ NoDup (defines sh1))
  /\ (forall sh1 loc1,
        exec os incdirs rec (Resetall e) match_end sh loc = Ok (sh1, loc1) ->
        mem x (defines sh1) = false /\ NoDup (defines sh1)).
Proof.
  intros N. split; [|split]; intros sh1 loc1 H; simpl in H.
  - destruct (mem name (defines sh)) eqn:D; simpl in H; ok_inv H.
    + split; [|assumption].
      destruct (str_eqb x name) eqn:E; [|reflexivity].
      apply str_eqb_eq in E. subst. simpl. assumption.
    + simpl. split.
      * rewrite mem_app. apply orb_comm.
      * apply NoDup_app; [exact N|constructor; [tauto|constructor]|].
        intros y I [J|[]]. subst y. apply mem_false in D. contradiction.
  - destruct (mem name (defines sh)) eqn:D; simpl in H; ok_inv H.
    + simpl. split; [apply mem_remove_first|apply remove_first_NoDup];
        assumption.
    + split; [|assumption].
      destruct (str_eqb x name) eqn:E; simpl; [|reflexivity].
      apply str_eqb_eq in E. subst. assumption.
  - ok_inv H. simpl. split; [reflexivity|constructor].
Qed.

(** X7. On a define table without duplicates the three directives act as
    on a set: after [`define NAME] exactly [NAME] and the names defined
    before are defined, after [`undef NAME] exactly the names defined
    before other than [NAME], after [`resetall] none; and the table has
    no duplicates afterwards. *)
Theorem define_table_is_a_set os incdirs rec name e match_end sh loc x :
  NoDup (defines sh) ->
  (forall sh1 loc1,
      exec os incdirs rec (Define name e) match_end sh loc = Ok (sh1, loc1) ->
      mem x (defines sh1) = str_eqb x name || mem x (defines sh)
      /\ NoDup (defines sh1))
  /\ (forall sh1 loc1,
        exec os incdirs rec (Undef name e) match_end sh loc = Ok (sh1, loc1) ->
        mem x (defines sh1) = negb (str_eqb x name) && mem x (defines sh)
        /\ NoDup (defines sh1))
  /\ (forall sh1 loc1,
        exec os incdirs rec (Resetall e) match_end sh loc = Ok (sh1, loc1) ->
        mem x (defines sh1) = false /\ NoDup (defines sh1)).
Proof. exact (exec_define_table os incdirs rec name e match_end sh loc x). Qed.

Lemma define_table_is_a_set_witness :
  mem (lit "B") (defines (mkShared [lit "A"] [] [lit "src"] []))
  = negb (str_eqb (lit "B") (lit "B")) && mem (lit "B") [lit "A"; lit "B"]
  /\ NoDup (defines (mkShared [lit "A"] [] [lit "src"] [])).
Proof.
  apply (proj1 (proj2 (define_table_is_a_set
           demo_os demo_incdirs no_rec (lit "B") 8 1
           (mkShared [lit "A"; lit "B"] [] [lit "src"] []) init_locals
           (lit "B")
           ltac:(repeat constructor; simpl; intuition discriminate)))
         (mkShared [lit "A"] [] [lit "src"] []) (with_pos 8 init_locals)).
  reflexivity.
Defined.

Lemma include_file_nodup os rec f sh sh' :
  (forall c s s', NoDup (defines s) -> rec c s = Ok s' -> NoDup (defines s')) ->
  NoDup (defines sh) ->
  include_file os rec f sh = Ok sh' ->
  NoDup (defines sh').
Proof.
  intros R N. unfold include_file.
  destruct (fs os f) as [| | | |c]; simpl; intros H.
  - ok_inv H. assumption.
  - ok_inv H. assumption.
  - ok_inv H. assumption.
  - discriminate.
  - destruct (rec c _) as [s1| | |] eqn:E; simpl in H; try discriminate.
    apply R in E; [|assumption].
    destruct (head s1); [discriminate|]. ok_inv H. assumption.
Qed.

Lemma step_nodup os incdirs rec content sh loc sh' loc' :
  (forall c s s', NoDup (defines s) -> rec c s = Ok s' -> NoDup (defines s')) ->
  NoDup (defines sh) ->
  step os incdirs rec content sh loc = Ok (sh', loc') ->
  NoDup (defines sh').
Proof.
  intros R N H. unfold step in H.
  destruct (search_marker content (pos loc)) as [[[ms me] k]|].
  - destruct k.
    + destruct (recognise content ms)
        as [path e|name e|name e|e|name s e|s e|e|name s e|] eqn:X.
      * destruct (py_last (head sh)) as [h|] eqn:P;
          [|simpl in H; rewrite P in H; discriminate].
        rewrite (exec_include os incdirs rec path e me sh loc h P) in H.
        destruct (located os incdirs h path) as [f|].
        -- destruct (include_file os rec f sh) as [s1| | |] eqn:E;
             simpl in H; try discriminate.
           ok_inv H. eapply include_file_nodup; eassumption.
        -- ok_inv H. assumption.
      * eapply (proj1 (exec_define_table os incdirs rec name e me sh loc
                         [] N)). exact H.
      * eapply (proj1 (proj2 (exec_define_table os incdirs rec name e me
                                sh loc [] N))). exact H.
      * eapply (proj2 (proj2 (exec_define_table os incdirs rec [] e me
                                sh loc [] N))). exact H.
      * simpl in H.
        destruct (negb (exclude loc) && negb (mem name (defines sh)));
          ok_inv H; assumption.
      * simpl in H.
        destruct (py_last (conditionals sh)) as [top|]; [|discriminate].
        destruct (negb (exclude loc)); [ok_inv H; assumption|].
        destruct (Cond.exclude top); ok_inv H; assumption.
      * simpl in H.
        match type of H with (bind ?r _ = _) => destruct r; simpl in H end;
          try discriminate.
        destruct (conditionals sh); [discriminate|]. ok_inv H. assumption.
      * simpl in H.
        destruct (negb (exclude loc) && mem name (defines sh));
          ok_inv H; assumption.
      * simpl in H. ok_inv H. assumption.
    + destruct (search_quote content me); ok_inv H; assumption.
    + destruct (search_newline content me); ok_inv H; assumption.
    + destruct (search_block_end content me); ok_inv H; assumption.
  - ok_inv H. assumption.
Qed.

Lemma loop_nodup os incdirs fuel : forall content sh loc sh' loc',
  NoDup (defines sh) ->
  loop os incdirs fuel content sh loc = Ok (sh', loc') ->
  NoDup (defines sh').
Proof.
  induction fuel as [|fuel IH]; intros content sh loc sh' loc' N H.
  - simpl in H. destruct (pos loc <? length content); [discriminate|].
    ok_inv H. assumption.
  - destruct (Nat.lt_ge_cases (pos loc) (length content)) as [L|L].
    + rewrite loop_step in H by assumption.
      destruct (step os incdirs (nested os incdirs fuel) content sh loc)
        as [[sh1 loc1]| | |] eqn:S; simpl in H; try discriminate.
      apply step_nodup in S; [eapply IH; eassumption| |assumption].
      intros c s s' Ns E. unfold nested, fmap in E.
      destruct (loop os incdirs fuel c s init_locals) as [[s1 l1]| | |] eqn:X;
        simpl in E; try discriminate.
      ok_inv E. eapply IH; eassumption.
    + rewrite loop_done in H by assumption. ok_inv H. assumption.
Qed.

(** X8. No name is ever twice in the define table: a run that starts
    on a table without duplicates (the empty one of a fresh run) returns
    with a table without duplicates, through every included file. *)
Theorem define_table_has_no_duplicates os incdirs fuel content sh regs sh' :
  NoDup (defines sh) ->
  preproc os incdirs fuel content sh = Ok (regs, sh') ->
  NoDup (defines sh').
Proof.
  intros N H. unfold preproc in H.
  destruct (loop os incdirs fuel content sh init_locals)
    as [[sh1 loc1]| | |] eqn:L; simpl in H; try discriminate.
  ok_inv H. eapply loop_nodup; eassumption.
Qed.

Lemma define_table_has_no_duplicates_witness :
  NoDup (defines (mkShared [lit "X"; lit "Y"] [] [lit "src"] [])).
Proof.
  apply (define_table_has_no_duplicates demo_os demo_incdirs 9
           (lit "`include " ++ quoted (lit "defs.vh") ++ nl
            ++ lit "`define Y" ++ nl)
           demo_shared []
           (mkShared [lit "X"; lit "Y"] [] [lit "src"] [])).
  - constructor.
  - reflexivity.
Defined.

(** ** The frame that owns the exclusion *)

Lemma py_last_split (A : Type) (l : list A) (top : A) :
  py_last l = Some top -> l = removelast l ++ [top].
Proof.
  destruct l as [|x l]; intros H; [discriminate|].
  unfold py_last in H. inversion H as [E]. clear H.
  assert (L : last (x :: l) x = last l x) by (destruct l; reflexivity).
  rewrite <- L. apply app_removelast_last. discriminate.
Qed.

Lemma owners_snoc c f :
  length (owners (c ++ [f])) =
  length (owners c) + if Cond.exclude f then 1 else 0.
Proof.
  unfold owners. rewrite filter_app, length_app. simpl.
  destruct (Cond.exclude f); reflexivity.
Qed.

Lemma owners_top c top :
  py_last c = Some top ->
  length (owners c) =
  length (owners (removelast c)) + if Cond.exclude top then 1 else 0.
Proof.
  intros P. rewrite (py_last_split _ c top P) at 1. apply owners_snoc.
Qed.

Lemma exec_endif_plain os incdirs rec e match_end sh loc top :
  exclude loc = false ->
  py_last (conditionals sh) = Some top ->
  exec os incdirs rec (Endif e) match_end sh loc =
  Ok (with_conditionals (removelast (conditionals sh)) sh, with_pos e loc).
Proof.
  intros E P. simpl. rewrite E. simpl.
  destruct (conditionals sh); [discriminate|reflexivity].
Qed.

Lemma exec_endif_none os incdirs rec e match_end sh loc :
  py_last (conditionals sh) = None ->
  exec os incdirs rec (Endif e) match_end sh loc = IndexError.
Proof.
  intros P. apply exec_endif_empty.
  destruct (conditionals sh); [reflexivity|discriminate].
Qed.

Lemma step_owner os incdirs rec content sh loc sh' loc' :
  occurs (lit "`include ") content = false ->
  owner_inv sh loc ->
  step os incdirs rec content sh loc = Ok (sh', loc') ->
  owner_inv sh' loc'.
Proof.
  intros OI I H. unfold step in H. unfold owner_inv in *.
  destruct (search_marker content (pos loc)) as [[[ms me] k]|].
  - destruct k.
    + pose proof (recognise_not_include content ms) as NI.
      destruct (recognise content ms)
        as [path e|name e|name e|e|name s e|s e|e|name s e|].
      * exfalso. eapply NI; eauto.
      * simpl in H.
        destruct (negb (mem name (defines sh))); ok_inv H; exact I.
      * simpl in H. destruct (mem name (defines sh)); ok_inv H; exact I.
      * simpl in H. ok_inv H. exact I.
      * simpl in H. destruct (exclude loc) eqn:E; simpl in H.
        -- ok_inv H. simpl. rewrite owners_snoc, E. simpl. lia.
        -- destruct (negb (mem name (defines sh))); ok_inv H; simpl;
             rewrite owners_snoc; simpl; try rewrite E; lia.
      * simpl in H.
        destruct (py_last (conditionals sh)) as [top|] eqn:P; [|discriminate].
        pose proof (owners_top _ _ P) as T.
        destruct (exclude loc) eqn:E; simpl in H.
        -- destruct (Cond.exclude top) eqn:X; ok_inv H; simpl.
           ++ unfold set_last. rewrite owners_snoc. simpl. lia.
           ++ rewrite E. exact I.
        -- ok_inv H. simpl. unfold set_last. rewrite owners_snoc. simpl.
           destruct (Cond.exclude top); lia.
      * destruct (py_last (conditionals sh)) as [top|] eqn:P.
        -- pose proof (owners_top _ _ P) as T.
           destruct (exclude loc) eqn:E.
           ++ destruct (Cond.exclude top) eqn:X.
              ** rewrite (exec_endif_owner os incdirs rec e me sh loc top
                            E P X) in H.
                 ok_inv H. simpl. lia.
              ** rewrite (exec_endif_inert os incdirs rec e me sh loc top
                            E P X) in H.
                 ok_inv H. simpl. rewrite E. lia.
           ++ rewrite (exec_endif_plain os incdirs rec e me sh loc top E P)
                in H.
              ok_inv H. simpl. rewrite E.
              destruct (Cond.exclude top); lia.
        -- rewrite (exec_endif_none os incdirs rec e me sh loc P) in H.
           discriminate.
      * simpl in H. destruct (exclude loc) eqn:E; simpl in H.
        -- ok_inv H. simpl. rewrite owners_snoc, E. simpl. lia.
        -- destruct (mem name (defines sh)); ok_inv H; simpl;
             rewrite owners_snoc; simpl; try rewrite E; lia.
      * simpl in H. ok_inv H. exact I.
    + destruct (search_quote content me); ok_inv H; exact I.
    + destruct (search_newline content me); ok_inv H; exact I.
    + destruct (search_block_end content me); ok_inv H; exact I.
  - ok_inv H. exact I.
Qed.

(** X9. In a buffer without includes the scan excludes exactly while
    one frame of the conditional stack has its ['exclude'] entry set, and
    no two frames ever have it set together: if that holds when the loop
    starts (as on the empty stack of a fresh run), it holds when the loop
    returns. *)
Theorem one_frame_owns_the_exclusion os incdirs content fuel :
  occurs (lit "`include ") content = false ->
  forall sh loc sh' loc',
    owner_inv sh loc ->
    loop os incdirs fuel content sh loc = Ok (sh', loc') ->
    owner_inv sh' loc'.
Proof.
  intros OI. induction fuel as [|fuel IH]; intros sh loc sh' loc' I H.
  - simpl in H. destruct (pos loc <? length content); [discriminate|].
    ok_inv H. assumption.
  - destruct (Nat.lt_ge_cases (pos loc) (length content)) as [L|L].
    + rewrite loop_step in H by assumption.
      destruct (step os incdirs (nested os incdirs fuel) content sh loc)
        as [[sh1 loc1]| | |] eqn:S; simpl in H; try discriminate.
      apply step_owner in S; [|assumption|assumption].
      eapply IH; eassumption.
    + rewrite loop_done in H by assumption. ok_inv H. assumption.
Qed.

Lemma one_frame_owns_the_exclusion_witness :
  owner_inv (mkShared [] [Cond.mk true false; Cond.mk true true]
                      [lit "src"] [])
            (mkLocals 26 true 25 0 []).
Proof.
  apply (one_frame_owns_the_exclusion demo_os demo_incdirs
           (lit "`ifndef A `ifndef B `else ") 9 eq_refl
           demo_shared init_locals
           (mkShared [] [Cond.mk true false; Cond.mk true true]
                     [lit "src"] [])
           (mkLocals 26 true 25 0 [])).
  - reflexivity.
  - reflexivity.
Defined.

(** ** Keywords at the end of the buffer *)

Lemma skipn_length_app (A : Type) (pre rest : list A) :
  skipn (length pre) (pre ++ rest) = rest.
Proof. induction pre as [|x pre IH]; [reflexivity|exact IH]. Qed.

Lemma recognise_endif_followed (pre : str) c rest :
  recognise (pre ++ lit "`endif" ++ c :: rest) (length pre) =
  if is_ident_char c then Passthrough else Endif (length pre + 6).
Proof.
  unfold recognise, match_include, match_define, match_undef,
    match_resetall, match_ifdef, match_else, match_endif, match_ifndef,
    match_keyword_name, match_keyword.
  rewrite !skipn_length_app.
  cbv -[is_ident_char Nat.add length].
  destruct (is_ident_char c); reflexivity.
Qed.

(** X10. [`endif], [`else] and [`resetall] need a character after the
    keyword.  Written as the very last characters of the buffer they are
    not directives; followed by an identifier character they are not
    either; followed by any other character, [`endif] is recognised and
    its end is the end of the keyword. *)
Theorem keyword_needs_a_following_character (pre : str) :
  recognise (pre ++ lit "`endif") (length pre) = Passthrough
  /\ recognise (pre ++ lit "`else") (length pre) = Passthrough
  /\ recognise (pre ++ lit "`resetall") (length pre) = Passthrough
  /\ (forall c rest,
        recognise (pre ++ lit "`endif" ++ c :: rest) (length pre) =
        if is_ident_char c then Passthrough else Endif (length pre + 6)).
Proof.
  repeat split; try (intros c rest; apply recognise_endif_followed);
    unfold recognise, match_include, match_define, match_undef,
      match_resetall, match_ifdef, match_else, match_endif, match_ifndef,
      match_keyword_name, match_keyword;
    rewrite !skipn_length_app; reflexivity.
Qed.

(** ** Where an include is looked for *)

Lemma include_incdirs_first_hit os rec path sh d after : forall before,
  Forall (fun x => os_path_isfile os
                     (os_path_normpath os (os_path_join os x path)) = false)
         before ->
  os_path_isfile os (os_path_normpath os (os_path_join os d path)) = true ->
  include_incdirs os rec path (before ++ d :: after) sh =
  include_file os rec (os_path_normpath os (os_path_join os d path)) sh.
Proof.
  induction before as [|b before IH]; intros F H; simpl.
  - rewrite H. reflexivity.
  - inversion F; subst. rewrite H2. apply IH; assumption.
Qed.

(** X11. An include reads the file of the directory on top of
    [self.head] when there is one, whatever the configured directories
    are, also when that file then fails to open (no fallback); otherwise
    it reads the file of the first configured directory that has one, and
    the directories after that one play no part. *)
Theorem include_search_order os rec path e match_end sh loc h :
  py_last (head sh) = Some h ->
  (os_path_isfile os (os_path_normpath os (os_path_join os h path)) = true ->
   forall incdirs,
     exec os incdirs rec (Include path e) match_end sh loc =
     (sh' <- include_file os rec
               (os_path_normpath os (os_path_join os h path)) sh ;;
      Ok (sh', with_pos (e + 1) loc)))
  /\ (os_path_isfile os (os_path_normpath os (os_path_join os h path)) = false ->
      forall before d after,
        Forall (fun x => os_path_isfile os
                           (os_path_normpath os (os_path_join os x path))
                         = false) before ->
        os_path_isfile os (os_path_normpath os (os_path_join os d path))
        = true ->
        exec os (before ++ d :: after) rec (Include path e) match_end sh loc =
        (sh' <- include_file os rec
                  (os_path_normpath os (os_path_join os d path)) sh ;;
         Ok (sh', with_pos (e + 1) loc))).
Proof.
  intros P. split.
  - intros L incdirs. simpl. rewrite P, L. reflexivity.
  - intros L before d after F H. simpl. rewrite P, L.
    rewrite include_incdirs_first_hit by assumption. reflexivity.
Qed.

Lemma include_search_order_witness :
  exec demo_os [lit "rtl"; lit "lib"; lit "other"] no_rec
       (Include (lit "common.vh") 19) 1 demo_shared init_locals
  = (sh' <- include_file demo_os no_rec
              (os_path_normpath demo_os
                 (os_path_join demo_os (lit "lib") (lit "common.vh")))
              demo_shared ;;
     Ok (sh', with_pos (19 + 1) init_locals)).
Proof.
  apply (proj2 (include_search_order demo_os no_rec (lit "common.vh") 19 1
                  demo_shared init_locals (lit "src") eq_refl)
           eq_refl [lit "rtl"] (lit "lib") [lit "other"]).
  - constructor; [reflexivity|constructor].
  - reflexivity.
Defined.

(* ================================================================= *)
(** * [HDL_Preprocessor_settings.incdirs] *)

Section SettingsIncdirs.

Variable value : Type.
Variable as_str : value -> option str.
Variable py_eq : value -> value -> bool.
Variable os_path_isdir : str -> bool.

(** [==] on the values of a settings file is an equivalence, and a value
    equal to a string is that string. *)
Hypothesis py_eq_refl : forall x, py_eq x x = true.
Hypothesis py_eq_sym : forall x y, py_eq x y = py_eq y x.
Hypothesis py_eq_trans :
  forall x y z, py_eq x y = true -> py_eq y z = true -> py_eq x z = true.
Hypothesis py_eq_str : forall x y, py_eq x y = true -> as_str x = as_str y.

Let ok := path_ok as_str os_path_isdir.
Let count := count_eq py_eq.

Lemma ok_eq x y : py_eq x y = true -> ok x = ok y.
Proof.
  intros H. unfold ok, path_ok. rewrite (py_eq_str x y H). reflexivity.
Qed.

Lemma py_eq_class x y z : py_eq y x = true -> py_eq y z = py_eq x z.
Proof.
  intros H. destruct (py_eq x z) eqn:E.
  - eapply py_eq_trans; eassumption.
  - destruct (py_eq y z) eqn:F; [|reflexivity].
    rewrite <- E. symmetry. apply (py_eq_trans x y z); [|exact F].
    rewrite py_eq_sym. exact H.
Qed.

Lemma count_cons z y l :
  count z (y :: l) = (if py_eq y z then 1 else 0) + count z l.
Proof.
  unfold count, count_eq. simpl. destruct (py_eq y z); reflexivity.
Qed.

Lemma count_app z l1 l2 : count z (l1 ++ l2) = count z l1 + count z l2.
Proof.
  unfold count, count_eq. rewrite filter_app, length_app. reflexivity.
Qed.

Lemma count_rev z l : count z (rev l) = count z l.
Proof.
  induction l as [|y l IH]; [reflexivity|].
  simpl rev. rewrite count_app, IH, !count_cons.
  unfold count at 2, count_eq. simpl. lia.
Qed.

Lemma count_class z x l : py_eq x z = true -> count z l = count x l.
Proof.
  intros H. induction l as [|y l IH]; [reflexivity|].
  rewrite !count_cons, IH. f_equal.
  rewrite (py_eq_sym y z), (py_eq_sym y x).
  rewrite (py_eq_class z x y H). reflexivity.
Qed.

(** Removing a value that is not a usable path, when an equal item is in
    the list: the usable paths stay, in order, and one item of the class
    of that value is gone. *)
Lemma list_remove_bad x : forall l,
  ok x = false -> 0 < count x l ->
  exists l',
    list_remove py_eq x l = Some l'
    /\ filter ok l' = filter ok l
    /\ forall z, count z l = count z l' + if py_eq x z then 1 else 0.
Proof.
  induction l as [|y l IH]; intros B C.
  - unfold count, count_eq in C. simpl in C. lia.
  - simpl. destruct (py_eq y x) eqn:E.
    + exists l. repeat split.
      * simpl. rewrite (ok_eq y x E). fold ok. rewrite B. reflexivity.
      * intros z. rewrite count_cons, (py_eq_class x y z E). lia.
    + rewrite count_cons, E in C. simpl in C.
      destruct (IH B C) as (l' & R & F & K).
      exists (y :: l'). rewrite R. repeat split.
      * simpl. rewrite F. reflexivity.
      * intros z. rewrite !count_cons, (K z). lia.
Qed.

Lemma all_ok l :
  (forall z, ok z = false -> count z l = 0) -> filter ok l = l.
Proof.
  induction l as [|y l IH]; intros H; [reflexivity|].
  simpl. destruct (ok y) eqn:E.
  - f_equal. apply IH. intros z Z. specialize (H z Z).
    rewrite count_cons in H. lia.
  - specialize (H y E). rewrite count_cons, py_eq_refl in H. lia.
Qed.

Lemma incdirs_loop_filter : forall todo setting out,
  (forall z, ok z = false -> count z setting = count z todo) ->
  incdirs_loop as_str py_eq os_path_isdir todo setting out =
  Some (filter ok setting,
        out ++ map (@PathRemoved value)
                   (filter (fun p => negb (ok p)) todo)).
Proof.
  induction todo as [|x todo IH]; intros setting out H.
  - simpl. rewrite app_nil_r. rewrite all_ok; [reflexivity|].
    intros z Z. rewrite (H z Z). reflexivity.
  - simpl. fold ok. destruct (ok x) eqn:E; simpl.
    + apply IH. intros z Z. rewrite (H z Z), count_cons.
      destruct (py_eq x z) eqn:F; [|reflexivity].
      apply ok_eq in F. congruence.
    + assert (C : 0 < count x setting).
      { rewrite (H x E), count_cons, py_eq_refl. lia. }
      destruct (list_remove_bad x setting E C) as (s' & R & F & K).
      rewrite R, IH.
      * rewrite F, <- app_assoc. reflexivity.
      * intros z Z. specialize (H z Z). rewrite count_cons, (K z) in H. lia.
Qed.

(** X12. [incdirs()] on a list setting never fails in [remove], returns
    exactly the items that are strings naming existing directories, in
    their order, and prints one removal message per other item, last item
    first.  Called again on what it returned (the list object of the
    settings was changed in place) it returns the same list and prints
    nothing: every activation of [preproc] of a run reads the same
    directories. *)
Theorem settings_incdirs_filters (l : list value) :
  settings_incdirs as_str py_eq os_path_isdir (Some l) =
  Some (filter ok l,
        map (@PathRemoved value) (filter (fun p => negb (ok p)) (rev l)))
  /\ settings_incdirs as_str py_eq os_path_isdir (Some (filter ok l)) =
     Some (filter ok l, []).
Proof.
  assert (G : forall l',
             settings_incdirs as_str py_eq os_path_isdir (Some l') =
             Some (filter ok l',
                   map (@PathRemoved value)
                       (filter (fun p => negb (ok p)) (rev l')))).
  { intros l'. unfold settings_incdirs. rewrite incdirs_loop_filter.
    - reflexivity.
    - intros z _. symmetry. apply count_rev. }
  split; [apply G|]. rewrite G. f_equal. f_equal.
  - clear G. induction l as [|y l IH]; [reflexivity|].
    simpl. destruct (ok y) eqn:E; [|exact IH].
    simpl. rewrite E. f_equal. exact IH.
  - assert (N : forall l', Forall (fun p => ok p = true) l' ->
                           filter (fun p => negb (ok p)) l' = []).
    { induction l' as [|y l' IH]; intros F; [reflexivity|].
      inversion F; subst. simpl. rewrite H1. simpl. apply IH. assumption. }
    rewrite N; [reflexivity|].
    apply Forall_rev. apply Forall_forall. intros p I.
    apply filter_In in I. tauto.
Qed.

End SettingsIncdirs.

Lemma demo_py_eq_refl x : demo_py_eq x x = true.
Proof. destruct x; simpl; [apply str_eqb_refl|apply Nat.eqb_refl]. Qed.

Lemma demo_py_eq_sym x y : demo_py_eq x y = demo_py_eq y x.
Proof.
  destruct x, y; simpl; try reflexivity;
    [apply str_eqb_sym|apply Nat.eqb_sym].
Qed.

Lemma demo_py_eq_eq x y : demo_py_eq x y = true -> x = y.
Proof.
  destruct x, y; simpl; intros H; try discriminate.
  - apply str_eqb_eq in H. congruence.
  - apply Nat.eqb_eq in H. congruence.
Qed.

Lemma demo_py_eq_trans x y z :
  demo_py_eq x y = true -> demo_py_eq y z = true -> demo_py_eq x z = true.
Proof.
  intros H1 H2. apply demo_py_eq_eq in H1, H2. subst.
  apply demo_py_eq_refl.
Qed.

Lemma demo_py_eq_str x y :
  demo_py_eq x y = true -> demo_as_str x = demo_as_str y.
Proof. intros H. apply demo_py_eq_eq in H. subst. reflexivity. Qed.

Lemma settings_incdirs_filters_witness :
  settings_incdirs demo_as_str demo_py_eq demo_isdir
    (Some [DStr (lit "gone"); DStr (lit "lib"); DNum 3; DStr (lit "gone");
           DStr (lit "rtl")])
  = Some ([DStr (lit "lib"); DStr (lit "rtl")],
          [PathRemoved (DStr (lit "gone")); PathRemoved (DNum 3);
           PathRemoved (DStr (lit "gone"))])
  /\ settings_incdirs demo_as_str demo_py_eq demo_isdir
       (Some [DStr (lit "lib"); DStr (lit "rtl")])
     = Some ([DStr (lit "lib"); DStr (lit "rtl")], []).
Proof.
  apply (settings_incdirs_filters demo_value demo_as_str demo_py_eq demo_isdir
           demo_py_eq_refl demo_py_eq_sym demo_py_eq_trans demo_py_eq_str
           [DStr (lit "gone"); DStr (lit "lib"); DNum 3; DStr (lit "gone");
            DStr (lit "rtl")]).
Defined.

(* ================================================================= *)
(** * A conditional block, from the buffer to the regions *)

Lemma ident_start_not_space c : is_ident_start c = true -> is_space c = false.
Proof.
  destruct c as [[] [] [] [] [] [] [] []]; intros H;
    try reflexivity; vm_compute in H; discriminate.
Qed.

Lemma span_all f : forall l c rest,
  forallb f l = true -> f c = false ->
  span f (l ++ c :: rest) = (l, c :: rest).
Proof.
  induction l as [|x l IH]; intros c rest F C; simpl.
  - rewrite C. reflexivity.
  - simpl in F. apply andb_prop in F. destruct F as (F1 & F2).
    rewrite F1, (IH c rest F2 C). reflexivity.
Qed.

Lemma identifier_valid name c rest :
  valid_name name = true -> is_ident_char c = false ->
  identifier (name ++ c :: rest) = Some (name, c :: rest).
Proof.
  destruct name as [|n0 name]; simpl; intros V C; [discriminate|].
  apply andb_prop in V. destruct V as (V1 & V2).
  rewrite V1, (span_all is_ident_char name c rest V2 C). reflexivity.
Qed.

(** [`ifdef], one space and an identifier, then a character that cannot
    continue the identifier. *)
Lemma recognise_ifdef name c rest :
  valid_name name = true -> is_ident_char c = false ->
  recognise (lit "`ifdef " ++ name ++ c :: rest) 0 =
  Ifdef name 0 (7 + length name).
Proof.
  intros V C.
  assert (E1 : match_include (lit "`ifdef " ++ name ++ c :: rest) 0 = None)
    by reflexivity.
  assert (E2 : match_define (lit "`ifdef " ++ name ++ c :: rest) 0 = None)
    by reflexivity.
  assert (E3 : match_undef (lit "`ifdef " ++ name ++ c :: rest) 0 = None)
    by reflexivity.
  assert (E4 : match_resetall (lit "`ifdef " ++ name ++ c :: rest) 0 = None)
    by reflexivity.
  assert (E5 : match_ifdef (lit "`ifdef " ++ name ++ c :: rest) 0 =
               Some (name, 7 + length name)).
  { unfold match_ifdef, match_keyword_name.
    change (starts_with (lit "`ifdef")
              (skipn 0 (lit "`ifdef " ++ name ++ c :: rest)))
      with (Some (" "%char :: name ++ c :: rest)).
    cbv beta iota.
    assert (S : span is_space (" "%char :: name ++ c :: rest) =
                ([" "%char], name ++ c :: rest)).
    { destruct name as [|n0 name]; [discriminate|].
      simpl in V. apply andb_prop in V. destruct V as (V1 & _).
      apply ident_start_not_space in V1.
      change (span is_space (" "%char :: (n0 :: name) ++ c :: rest))
        with (let (a, b) :=
                (if is_space n0
                 then let (a, b) := span is_space (name ++ c :: rest)
                      in (n0 :: a, b)
                 else ([], n0 :: name ++ c :: rest))
              in (" "%char :: a, b)).
      rewrite V1. reflexivity. }
    rewrite S, (identifier_valid name c rest V C). reflexivity. }
  unfold recognise. rewrite E1, E2, E3, E4, E5. reflexivity.
Qed.

Lemma find_marker_skip r : forall a i,
  occurs [backtick] a = false -> occurs [dquote] a = false ->
  occurs [slash; slash] a = false -> occurs [slash; star] a = false ->
  find_marker (a ++ backtick :: r) i =
  Some (i + length a, i + length a + 1, Backtick).
Proof.
  induction a as [|c a IH]; intros i H1 H2 H3 H4.
  - simpl length. rewrite Nat.add_0_r. reflexivity.
  - apply occurs_cons_false in H1, H2, H3, H4.
    destruct H1 as (S1 & H1), H2 as (S2 & H2), H3 as (S3 & H3),
      H4 as (S4 & H4).
    specialize (IH (S i) H1 H2 H3 H4).
    replace (i + length (c :: a)) with (S i + length a) by (simpl; lia).
    simpl in S1, S2, S3, S4.
    change ((c :: a) ++ backtick :: r) with (c :: (a ++ backtick :: r)).
    cbn [find_marker].
    rewrite (Ascii.eqb_sym c backtick), (Ascii.eqb_sym c dquote),
      (Ascii.eqb_sym c slash).
    destruct (Ascii.eqb backtick c); [discriminate|].
    destruct (Ascii.eqb dquote c); [discriminate|].
    destruct (Ascii.eqb slash c); [|exact IH].
    destruct a as [|d a'].
    + exact IH.
    + cbn [app] in *.
      rewrite (Ascii.eqb_sym d slash), (Ascii.eqb_sym d star).
      destruct (Ascii.eqb slash d); [discriminate|].
      destruct (Ascii.eqb star d); [discriminate|].
      exact IH.
Qed.

Lemma marker_free_parts body :
  marker_free body = true ->
  occurs [backtick] body = false /\ occurs [dquote] body = false
  /\ occurs [slash; slash] body = false /\ occurs [slash; star] body = false.
Proof.
  unfold marker_free. intros H.
  repeat (apply andb_prop in H; destruct H as [H ?]).
  repeat split; apply negb_true_iff; assumption.
Qed.

(** X13. The buffer made of [`ifdef NAME], a newline, any text without
    markers, [`endif] and a newline: three iterations scan it; when [NAME]
    is defined nothing is excluded, otherwise the one region runs from the
    backtick of [`ifdef] to the end of [`endif]; the shared state is left
    as it was. *)
Theorem ifdef_block_region os incdirs name body sh fuel :
  valid_name name = true ->
  marker_free body = true ->
  3 <= fuel ->
  preproc os incdirs fuel
          (lit "`ifdef " ++ name ++ nl ++ body ++ lit "`endif" ++ nl) sh
  = Ok (if mem name (defines sh) then []
        else [(0, length (lit "`ifdef " ++ name ++ nl ++ body
                          ++ lit "`endif"))],
        sh).
Proof.
  intros V F L3.
  destruct fuel as [|[|[|fuel]]]; try lia. clear L3.
  destruct sh as [defs conds hd out]. simpl defines.
  destruct (marker_free_parts body F) as (B1 & B2 & B3 & B4).
  set (content := lit "`ifdef " ++ name ++ nl ++ body ++ lit "`endif" ++ nl).
  set (P := lit "`ifdef " ++ name).
  set (A := nl ++ body).
  assert (C1 : content = P ++ A ++ backtick :: lit "endif" ++ nl).
  { unfold content, P, A. rewrite <- !app_assoc. reflexivity. }
  assert (C2 : content = (P ++ A) ++ lit "`endif" ++ newline :: []).
  { unfold content, P, A. rewrite <- !app_assoc. reflexivity. }
  assert (C3 : content = ((P ++ A) ++ lit "`endif") ++ nl).
  { unfold content, P, A. rewrite <- !app_assoc. reflexivity. }
  assert (LP : length P = 7 + length name).
  { unfold P. rewrite length_app. reflexivity. }
  assert (LA : length A = 1 + length body).
  { unfold A. rewrite length_app. reflexivity. }
  assert (LC : length content = length P + length A + 7).
  { rewrite C3, !length_app. simpl. lia. }
  assert (LE : length (lit "`ifdef " ++ name ++ nl ++ body ++ lit "`endif")
               = length P + length A + 6).
  { replace (lit "`ifdef " ++ name ++ nl ++ body ++ lit "`endif")
      with ((P ++ A) ++ lit "`endif")
      by (unfold P, A; rewrite <- !app_assoc; reflexivity).
    rewrite !length_app. simpl. lia. }
  (* the markers of the three iterations *)
  assert (M1 : search_marker content 0 = Some (0, 1, Backtick))
    by reflexivity.
  assert (R1 : recognise content 0 = Ifdef name 0 (length P)).
  { rewrite LP. apply (recognise_ifdef name newline
                         (body ++ lit "`endif" ++ nl) V eq_refl). }
  assert (M2 : search_marker content (length P) =
               Some (length P + length A, length P + length A + 1, Backtick)).
  { unfold search_marker. rewrite C1, skipn_length_app.
    apply find_marker_skip; assumption. }
  assert (R2 : recognise content (length P + length A) =
               Endif (length P + length A + 6)).
  { rewrite C2, <- length_app.
    apply (recognise_endif_followed (P ++ A) newline []). }
  assert (M3 : search_marker content (length P + length A + 6) = None).
  { unfold search_marker.
    replace (length P + length A + 6)
      with (length ((P ++ A) ++ lit "`endif"))
      by (rewrite !length_app; simpl; lia).
    rewrite C3, skipn_length_app. reflexivity. }
  unfold preproc. rewrite LE. clearbody content P A.
  destruct (mem name defs) eqn:D.
  - (* NAME is defined *)
    rewrite (loop_step_ok os incdirs _ content _ init_locals
               (mkShared defs (conds ++ [Cond.mk true false]) hd out)
               (with_pos (length P) init_locals)).
    2: { simpl. lia. }
    2: { unfold step. simpl pos. rewrite M1, R1. simpl. rewrite D.
         reflexivity. }
    rewrite (loop_step_ok os incdirs _ content _ _ (mkShared defs conds hd out)
               (with_pos (length P + length A + 6)
                         (with_pos (length P) init_locals))).
    2: { simpl. lia. }
    2: { unfold step. simpl pos. rewrite M2, R2.
         rewrite (exec_endif_plain os incdirs _ _ _ _ _ (Cond.mk true false));
           [|reflexivity|apply py_last_snoc].
         simpl. rewrite removelast_last. reflexivity. }
    rewrite (loop_step_ok os incdirs _ content _ _ (mkShared defs conds hd out)
               (with_pos (length content)
                  (with_pos (length P + length A + 6)
                            (with_pos (length P) init_locals)))).
    2: { simpl. lia. }
    2: { unfold step. simpl pos. rewrite M3. reflexivity. }
    rewrite loop_done by (simpl; lia). reflexivity.
  - (* NAME is not defined *)
    rewrite (loop_step_ok os incdirs _ content _ init_locals
               (mkShared defs (conds ++ [Cond.mk false true]) hd out)
               (with_pos (length P) (begin_exclusion 0 init_locals))).
    2: { simpl. lia. }
    2: { unfold step. simpl pos. rewrite M1, R1. simpl. rewrite D.
         reflexivity. }
    rewrite (loop_step_ok os incdirs _ content _ _ (mkShared defs conds hd out)
               (with_pos (length P + length A + 6)
                  (end_exclusion (length P + length A + 6)
                     (with_pos (length P) (begin_exclusion 0 init_locals))))).
    2: { simpl. lia. }
    2: { unfold step. simpl pos. rewrite M2, R2.
         rewrite (exec_endif_owner os incdirs _ _ _ _ _ (Cond.mk false true));
           [|reflexivity|apply py_last_snoc|reflexivity].
         simpl. rewrite removelast_last. reflexivity. }
    rewrite (loop_step_ok os incdirs _ content _ _ (mkShared defs conds hd out)
               (with_pos (length content)
                  (with_pos (length P + length A + 6)
                     (end_exclusion (length P + length A + 6)
                        (with_pos (length P)
                                  (begin_exclusion 0 init_locals)))))).
    2: { simpl. lia. }
    2: { unfold step. simpl pos. rewrite M3. reflexivity. }
    rewrite loop_done by (simpl; lia). reflexivity.
Qed.

Lemma ifdef_block_region_witness :
  preproc demo_os demo_incdirs 3
          (lit "`ifdef FAST" ++ nl ++ lit "assign a = b / c;" ++ nl
           ++ lit "`endif" ++ nl)
          demo_shared
  = Ok ([(0, 36)], demo_shared).
Proof.
  apply (ifdef_block_region demo_os demo_incdirs (lit "FAST")
           (lit "assign a = b / c;" ++ nl) demo_shared 3).
  - reflexivity.
  - reflexivity.
  - lia.
Defined.

(* ================================================================= *)
(** * The ['equal'] entry of a frame *)

Lemma map_removelast (A B : Type) (f : A -> B) : forall l,
  map f (removelast l) = removelast (map f l).
Proof.
  induction l as [|x l IH]; [reflexivity|].
  destruct l as [|y l]; [reflexivity|].
  change (f x :: map f (removelast (y :: l)) =
          f x :: removelast (map f (y :: l))).
  f_equal. exact IH.
Qed.

Lemma map_set_last (A B : Type) (f : A -> B) x l :
  map f (set_last x l) = set_last (f x) (map f l).
Proof.
  unfold set_last. rewrite map_app, map_removelast. reflexivity.
Qed.

Lemma py_last_map (A B : Type) (f : A -> B) l :
  py_last (map f l) = option_map f (py_last l).
Proof.
  destruct (py_last l) as [top|] eqn:P.
  - rewrite (py_last_split _ l top P), map_app. apply py_last_snoc.
  - destruct l; [reflexivity|discriminate].
Qed.

Lemma same_but_equal_refl sh : same_but_equal sh sh.
Proof. unfold same_but_equal. auto. Qed.

Lemma include_file_equal os rec f a b :
  (forall c s t, same_but_equal s t -> rel_shared (rec c s) (rec c t)) ->
  same_but_equal a b ->
  rel_shared (include_file os rec f a) (include_file os rec f b).
Proof.
  intros R (S1 & S2 & S3 & S4). unfold include_file.
  destruct (fs os f) as [| | | |c]; simpl.
  - unfold same_but_equal; simpl. rewrite S4. auto.
  - unfold same_but_equal; simpl. rewrite S4. auto.
  - unfold same_but_equal; simpl. rewrite S3, S4. auto.
  - exact I.
  - assert (X : same_but_equal
                  (with_head (head a ++ [os_path_split_0 os f]) a)
                  (with_head (head b ++ [os_path_split_0 os f]) b)).
    { unfold same_but_equal; simpl. rewrite S3. auto. }
    specialize (R c _ _ X). unfold rel_shared, result_same_but_equal in R.
    destruct (rec c (with_head (head a ++ [os_path_split_0 os f]) a))
      as [s1| | |];
      destruct (rec c (with_head (head b ++ [os_path_split_0 os f]) b))
      as [t1| | |]; simpl; try contradiction; try exact I.
    destruct R as ((T1 & T2 & T3 & T4) & _). rewrite <- T3.
    destruct (head s1); simpl; [exact I|].
    unfold same_but_equal; simpl. auto.
Qed.

Lemma exec_equal os incdirs rec d match_end a b loc :
  (forall c s t, same_but_equal s t -> rel_shared (rec c s) (rec c t)) ->
  same_but_equal a b ->
  rel_state (exec os incdirs rec d match_end a loc)
            (exec os incdirs rec d match_end b loc).
Proof.
  intros R S. pose proof S as (S1 & S2 & S3 & S4).
  assert (P : option_map Cond.exclude (py_last (conditionals a)) =
              option_map Cond.exclude (py_last (conditionals b))).
  { rewrite <- !py_last_map, S2. reflexivity. }
  unfold rel_state, result_same_but_equal.
  destruct d as [path e|name e|name e|e|name s e|s e|e|name s e|].
  - destruct (py_last (head a)) as [h|] eqn:H.
    + rewrite (exec_include os incdirs rec path e match_end a loc h H).
      rewrite S3 in H.
      rewrite (exec_include os incdirs rec path e match_end b loc h H).
      destruct (located os incdirs h path) as [f|]; simpl.
      * pose proof (include_file_equal os rec f a b R S) as X.
        unfold rel_shared, result_same_but_equal in X.
        destruct (include_file os rec f a); destruct (include_file os rec f b);
          simpl; try contradiction; try exact I.
        destruct X as (X & _). auto.
      * auto.
    + simpl. rewrite H. rewrite S3 in H. rewrite H. exact I.
  - simpl. rewrite <- S1.
    destruct (negb (mem name (defines a))); simpl; [|auto].
    split; [|reflexivity]. unfold same_but_equal; simpl. auto.
  - simpl. rewrite <- S1.
    destruct (mem name (defines a)); simpl; [|auto].
    split; [|reflexivity]. unfold same_but_equal; simpl. auto.
  - simpl. split; [|reflexivity]. unfold same_but_equal; simpl. auto.
  - simpl. rewrite <- S1.
    destruct (negb (exclude loc) && negb (mem name (defines a))); simpl;
      (split; [|reflexivity]); unfold same_but_equal; simpl;
      rewrite !map_app, S2; auto.
  - simpl.
    destruct (py_last (conditionals a)) as [ta|];
      destruct (py_last (conditionals b)) as [tb|]; simpl in P;
      try discriminate; [|exact I].
    inversion P as [X]. try rewrite <- X.
    destruct (negb (exclude loc)); simpl.
    + split; [|reflexivity]. unfold same_but_equal; simpl.
      rewrite !map_set_last, S2. auto.
    + destruct (Cond.exclude ta); simpl.
      * split; [|reflexivity]. unfold same_but_equal; simpl.
        rewrite !map_set_last, S2. auto.
      * auto.
  - simpl.
    assert (N : conditionals a = [] <-> conditionals b = []).
    { split; intros E; [rewrite E in S2|rewrite E in S2];
        [destruct (conditionals b)|destruct (conditionals a)];
        try reflexivity; discriminate. }
    assert (Q : same_but_equal
                  (with_conditionals (removelast (conditionals a)) a)
                  (with_conditionals (removelast (conditionals b)) b)).
    { unfold same_but_equal; simpl. rewrite !map_removelast, S2. auto. }
    destruct (exclude loc); simpl.
    + destruct (py_last (conditionals a)) as [ta|];
        destruct (py_last (conditionals b)) as [tb|]; simpl in P;
        try discriminate; [|exact I].
      inversion P as [X]. try rewrite <- X.
      destruct (Cond.exclude ta); simpl;
        destruct (conditionals a) as [|fa ca] eqn:Ca;
        destruct (conditionals b) as [|fb cb] eqn:Cb;
        try exact I;
        try (exfalso; destruct N as (N1 & N2);
             (discriminate (N1 eq_refl) || discriminate (N2 eq_refl)));
        split; [exact Q|reflexivity|exact Q|reflexivity].
    + destruct (conditionals a) as [|fa ca] eqn:Ca;
        destruct (conditionals b) as [|fb cb] eqn:Cb;
        try exact I;
        try (exfalso; destruct N as (N1 & N2);
             (discriminate (N1 eq_refl) || discriminate (N2 eq_refl))).
      split; [exact Q|reflexivity].
  - simpl. rewrite <- S1.
    destruct (negb (exclude loc) && mem name (defines a)); simpl;
      (split; [|reflexivity]); unfold same_but_equal; simpl;
      rewrite !map_app, S2; auto.
  - simpl. auto.
Qed.

Lemma step_equal os incdirs rec content a b loc :
  (forall c s t, same_but_equal s t -> rel_shared (rec c s) (rec c t)) ->
  same_but_equal a b ->
  rel_state (step os incdirs rec content a loc)
            (step os incdirs rec content b loc).
Proof.
  intros R S. unfold step.
  destruct (search_marker content (pos loc)) as [[[ms me] k]|].
  - destruct k.
    + apply exec_equal; assumption.
    + destruct (search_quote content me); simpl; (split; [|reflexivity]);
        [exact S|].
      destruct S as (S1 & S2 & S3 & S4). unfold same_but_equal; simpl.
      rewrite S4. auto.
    + destruct (search_newline content me); simpl; (split; [|reflexivity]);
        [exact S|].
      destruct S as (S1 & S2 & S3 & S4). unfold same_but_equal; simpl.
      rewrite S4. auto.
    + destruct (search_block_end content me); simpl; (split; [|reflexivity]);
        [exact S|].
      destruct S as (S1 & S2 & S3 & S4). unfold same_but_equal; simpl.
      rewrite S4. auto.
  - simpl. auto.
Qed.

Lemma loop_equal os incdirs fuel : forall content a b loc,
  same_but_equal a b ->
  rel_state (loop os incdirs fuel content a loc)
            (loop os incdirs fuel content b loc).
Proof.
  induction fuel as [|fuel IH]; intros content a b loc S.
  - simpl. destruct (pos loc <? length content); simpl; auto.
  - destruct (Nat.lt_ge_cases (pos loc) (length content)) as [L|L].
    + rewrite !loop_step by assumption.
      assert (R : forall c s t, same_but_equal s t ->
                    rel_shared (nested os incdirs fuel c s)
                               (nested os incdirs fuel c t)).
      { intros c s t St. specialize (IH c s t init_locals St).
        unfold nested, fmap, rel_shared, rel_state,
          result_same_but_equal in *.
        destruct (loop os incdirs fuel c s init_locals) as [[s1 l1]| | |];
          destruct (loop os incdirs fuel c t init_locals) as [[t1 l2]| | |];
          simpl in *; try contradiction; try exact I.
        destruct IH as (X & _). auto. }
      pose proof (step_equal os incdirs _ content a b loc R S) as X.
      unfold rel_state, result_same_but_equal in X.
      destruct (step os incdirs (nested os incdirs fuel) content a loc)
        as [[a1 l1]| | |];
        destruct (step os incdirs (nested os incdirs fuel) content b loc)
        as [[b1 l2]| | |]; simpl in *; try contradiction; try exact I.
      destruct X as (X1 & X2). subst l2. apply IH. exact X1.
    + rewrite !loop_done by assumption. simpl. auto.
Qed.

(** X14. The ['equal'] entry of a conditional frame is written and never
    read: two runs on shared states that differ only in the ['equal']
    entries of their frames end the same way (both return, both raise, or
    both run out of fuel), return the same regions, and leave shared states
    that again differ at most in ['equal'] entries. *)
Theorem equal_entry_is_never_read os incdirs fuel content a b :
  same_but_equal a b ->
  result_same_but_equal snd (fun p q => fst p = fst q)
    (preproc os incdirs fuel content a)
    (preproc os incdirs fuel content b).
Proof.
  intros S. pose proof (loop_equal os incdirs fuel content a b init_locals S)
    as X.
  unfold preproc, rel_state, result_same_but_equal in *.
  destruct (loop os incdirs fuel content a init_locals) as [[a1 l1]| | |];
    destruct (loop os incdirs fuel content b init_locals) as [[b1 l2]| | |];
    simpl in *; try contradiction; try exact I.
  destruct X as (X1 & X2). subst. auto.
Qed.

Lemma equal_entry_is_never_read_witness :
  result_same_but_equal snd (fun p q => fst p = fst q)
    (preproc demo_os demo_incdirs 5 (lit "text `else more `endif ")
             (mkShared [] [Cond.mk true false] [lit "src"] []))
    (preproc demo_os demo_incdirs 5 (lit "text `else more `endif ")
             (mkShared [] [Cond.mk false false] [lit "src"] [])).
Proof.
  apply (equal_entry_is_never_read demo_os demo_incdirs 5
           (lit "text `else more `endif ")
           (mkShared [] [Cond.mk true false] [lit "src"] [])
           (mkShared [] [Cond.mk false false] [lit "src"] [])).
  repeat split.
Defined.

(* ================================================================= *)
(** * What the scanner finds *)

Lemma find_marker_leftmost content : forall l pos,
  skipn pos content = l ->
  match find_marker l pos with
  | Some (ms, me, k) =>
      pos <= ms /\ marker_at content ms = Some k
      /\ me = ms + marker_width k
      /\ forall j, pos <= j < ms -> marker_at content j = None
  | None => forall j, pos <= j -> marker_at content j = None
  end.
Proof.
  induction l as [|c l IH]; intros pos Sk.
  - simpl. intros j L. unfold marker_at.
    assert (E : skipn j content = []).
    { apply skipn_all2.
      assert (X : length (skipn pos content) = length content - pos)
        by apply length_skipn.
      rewrite Sk in X. simpl in X. lia. }
    rewrite E. reflexivity.
  - destruct (skipn_cons_nth _ content pos c l Sk) as (_ & Sk').
    specialize (IH (S pos) Sk').
    assert (At : marker_at content pos =
                 if Ascii.eqb c backtick then Some Backtick
                 else if Ascii.eqb c dquote then Some Quote
                 else if Ascii.eqb c slash then
                   match l with
                   | d :: _ =>
                       if Ascii.eqb d slash then Some LineComment
                       else if Ascii.eqb d star then Some BlockComment
                       else None
                   | [] => None
                   end
                 else None).
    { unfold marker_at. rewrite Sk. reflexivity. }
    cbn [find_marker].
    destruct (Ascii.eqb c backtick).
    { repeat split; try lia; try exact At; simpl; lia. }
    destruct (Ascii.eqb c dquote).
    { repeat split; try lia; try exact At; simpl; lia. }
    assert (Rest : marker_at content pos = None ->
              match find_marker l (S pos) with
              | Some (ms, me, k) =>
                  pos <= ms /\ marker_at content ms = Some k
                  /\ me = ms + marker_width k
                  /\ forall j, pos <= j < ms -> marker_at content j = None
              | None => forall j, pos <= j -> marker_at content j = None
              end).
    { intros N. destruct (find_marker l (S pos)) as [[[ms me] k]|].
      - destruct IH as (I1 & I2 & I3 & I4).
        repeat split; try lia; try assumption.
        intros j Hj. destruct (Nat.eq_dec j pos) as [->|D]; [exact N|].
        apply I4. lia.
      - intros j Hj. destruct (Nat.eq_dec j pos) as [->|D]; [exact N|].
        apply IH. lia. }
    destruct (Ascii.eqb c slash); [|apply Rest; exact At].
    destruct l as [|d l']; [apply Rest; exact At|].
    destruct (Ascii.eqb d slash).
    { repeat split; try lia; try exact At; simpl; lia. }
    destruct (Ascii.eqb d star).
    { repeat split; try lia; try exact At; simpl; lia. }
    apply Rest. exact At.
Qed.

(** X15. The search of line 115 returns the leftmost marker at or after
    [pos]: a marker starts at the returned offset, its end is its start
    plus its width, and no marker starts at any offset between [pos] and
    it; when the search finds nothing, no marker starts anywhere from
    [pos] on. *)
Theorem search_marker_is_leftmost content pos :
  match search_marker content pos with
  | Some (ms, me, k) =>
      pos <= ms /\ marker_at content ms = Some k
      /\ me = ms + marker_width k
      /\ forall j, pos <= j < ms -> marker_at content j = None
  | None => forall j, pos <= j -> marker_at content j = None
  end.
Proof. apply find_marker_leftmost. reflexivity. Qed.

Lemma find_newline_first content : forall l from,
  skipn from content = l ->
  match find_newline l from with
  | Some e =>
      exists i, e = i + 1 /\ from <= i
                /\ nth_error content i = Some newline
                /\ forall j, from <= j < i ->
                             nth_error content j <> Some newline
  | None => forall j, from <= j -> nth_error content j <> Some newline
  end.
Proof.
  induction l as [|c l IH]; intros from Sk.
  - simpl. intros j L N.
    assert (length content <= from).
    { assert (X : length (skipn from content) = length content - from)
        by apply length_skipn.
      rewrite Sk in X. simpl in X. lia. }
    assert (nth_error content j = None) by (apply nth_error_None; lia).
    congruence.
  - destruct (skipn_cons_nth _ content from c l Sk) as (N & Sk').
    specialize (IH (S from) Sk'). cbn [find_newline].
    destruct (Ascii.eqb c newline) eqn:E.
    + apply Ascii.eqb_eq in E. subst c.
      exists from. repeat split; try lia; try assumption.
    + assert (NC : nth_error content from <> Some newline).
      { rewrite N. intros X. inversion X; subst.
        rewrite Ascii.eqb_refl in E. discriminate. }
      destruct (find_newline l (S from)) as [e|].
      * destruct IH as (i & I1 & I2 & I3 & I4).
        exists i. split; [lia|]. split; [lia|]. split; [exact I3|].
        intros j Hj. destruct (Nat.eq_dec j from) as [->|D]; [exact NC|].
        apply I4. lia.
      * intros j Hj. destruct (Nat.eq_dec j from) as [->|D]; [exact NC|].
        apply IH. lia.
Qed.

(** X16. A line comment is skipped up to and including the first
    newline after its two slashes; when there is none, the message about
    the comment that is not ended is printed and [pos] becomes the length
    of the buffer.  Nothing else of the state changes. *)
Theorem line_comment_ends_at_first_newline
        os incdirs rec content sh loc ms me :
  search_marker content (pos loc) = Some (ms, me, LineComment) ->
  (exists i,
      me <= i /\ nth_error content i = Some newline
      /\ (forall j, me <= j < i -> nth_error content j <> Some newline)
      /\ step os incdirs rec content sh loc = Ok (sh, with_pos (i + 1) loc))
  \/ ((forall j, me <= j -> nth_error content j <> Some newline)
      /\ step os incdirs rec content sh loc
         = Ok (print LineCommentNotEnded sh, with_pos (length content) loc)).
Proof.
  intros M. unfold step. rewrite M.
  pose proof (find_newline_first content (skipn me content) me eq_refl) as Q.
  unfold search_newline.
  destruct (find_newline (skipn me content) me) as [e|].
  - left. destruct Q as (i & -> & Q1 & Q2 & Q3). exists i.
    split; [exact Q1|]. split; [exact Q2|]. split; [exact Q3|reflexivity].
  - right. split; [exact Q|reflexivity].
Qed.

Lemma line_comment_ends_at_first_newline_witness :
  (exists i,
      2 <= i
      /\ nth_error (lit "// a" ++ nl ++ lit "b" ++ nl) i = Some newline
      /\ (forall j, 2 <= j < i ->
            nth_error (lit "// a" ++ nl ++ lit "b" ++ nl) j <> Some newline)
      /\ step demo_os demo_incdirs no_rec (lit "// a" ++ nl ++ lit "b" ++ nl)
              demo_shared init_locals
         = Ok (demo_shared, with_pos (i + 1) init_locals))
  \/ ((forall j, 2 <= j ->
         nth_error (lit "// a" ++ nl ++ lit "b" ++ nl) j <> Some newline)
      /\ step demo_os demo_incdirs no_rec (lit "// a" ++ nl ++ lit "b" ++ nl)
              demo_shared init_locals
         = Ok (print LineCommentNotEnded demo_shared,
               with_pos (length (lit "// a" ++ nl ++ lit "b" ++ nl))
                        init_locals)).
Proof.
  apply (line_comment_ends_at_first_newline demo_os demo_incdirs no_rec
           (lit "// a" ++ nl ++ lit "b" ++ nl) demo_shared init_locals 0 2).
  reflexivity.
Defined.

Lemma find_block_end_first content : forall l from,
  skipn from content = l ->
  match find_block_end l from with
  | Some e =>
      exists i, e = i + 2 /\ from <= i
                /\ block_end_at content i = true
                /\ forall j, from <= j < i -> block_end_at content j = false
  | None => forall j, from <= j -> block_end_at content j = false
  end.
Proof.
  induction l as [|c l IH]; intros from Sk.
  - simpl. intros j L. unfold block_end_at.
    assert (E : skipn j content = []).
    { apply skipn_all2.
      assert (X : length (skipn from content) = length content - from)
        by apply length_skipn.
      rewrite Sk in X. simpl in X. lia. }
    rewrite E. reflexivity.
  - destruct (skipn_cons_nth _ content from c l Sk) as (_ & Sk').
    specialize (IH (S from) Sk').
    assert (At : block_end_at content from =
                 match l with
                 | d :: _ => Ascii.eqb c star && Ascii.eqb d slash
                 | [] => false
                 end).
    { unfold block_end_at. rewrite Sk. destruct l; reflexivity. }
    cbn [find_block_end].
    destruct l as [|d l'].
    + intros j Hj. destruct (Nat.eq_dec j from) as [->|D]; [exact At|].
      simpl in IH. apply IH. lia.
    + destruct (Ascii.eqb c star && Ascii.eqb d slash).
      * exists from. repeat split; try lia; try assumption.
      * destruct (find_block_end (d :: l') (S from)) as [e|].
        -- destruct IH as (i & I1 & I2 & I3 & I4).
           exists i. split; [lia|]. split; [lia|]. split; [exact I3|].
           intros j Hj. destruct (Nat.eq_dec j from) as [->|D]; [exact At|].
           apply I4. lia.
        -- intros j Hj. destruct (Nat.eq_dec j from) as [->|D]; [exact At|].
           apply IH. lia.
Qed.

(** X17. A block comment is skipped up to and including the first star
    and slash that start at or after the end of its opening slash and
    star (so the star of the opening cannot close it); when there is none,
    the message about the comment that is not ended is printed and [pos]
    becomes the length of the buffer. *)
Theorem block_comment_ends_at_first_star_slash
        os incdirs rec content sh loc ms me :
  search_marker content (pos loc) = Some (ms, me, BlockComment) ->
  (exists i,
      me <= i /\ block_end_at content i = true
      /\ (forall j, me <= j < i -> block_end_at content j = false)
      /\ step os incdirs rec content sh loc = Ok (sh, with_pos (i + 2) loc))
  \/ ((forall j, me <= j -> block_end_at content j = false)
      /\ step os incdirs rec content sh loc
         = Ok (print BlockCommentNotEnded sh, with_pos (length content) loc)).
Proof.
  intros M. unfold step. rewrite M.
  pose proof (find_block_end_first content (skipn me content) me eq_refl) as Q.
  unfold search_block_end.
  destruct (find_block_end (skipn me content) me) as [e|].
  - left. destruct Q as (i & -> & Q1 & Q2 & Q3). exists i.
    split; [exact Q1|]. split; [exact Q2|]. split; [exact Q3|reflexivity].
  - right. split; [exact Q|reflexivity].
Qed.

Lemma block_comment_ends_at_first_star_slash_witness :
  (exists i,
      2 <= i /\ block_end_at (lit "/*/ x */ y") i = true
      /\ (forall j, 2 <= j < i -> block_end_at (lit "/*/ x */ y") j = false)
      /\ step demo_os demo_incdirs no_rec (lit "/*/ x */ y")
              demo_shared init_locals
         = Ok (demo_shared, with_pos (i + 2) init_locals))
  \/ ((forall j, 2 <= j -> block_end_at (lit "/*/ x */ y") j = false)
      /\ step demo_os demo_incdirs no_rec (lit "/*/ x */ y")
              demo_shared init_locals
         = Ok (print BlockCommentNotEnded demo_shared,
               with_pos (length (lit "/*/ x */ y")) init_locals)).
Proof.
  apply (block_comment_ends_at_first_star_slash demo_os demo_incdirs no_rec
           (lit "/*/ x */ y") demo_shared init_locals 0 2).
  reflexivity.
Defined.

(* ================================================================= *)
(** * The directory stack over a run *)







(* ================================================================= *)
(** * Directives in excluded text *)

Lemma remove_first_absent name : forall l,
  mem name l = false -> remove_first name l = l.
Proof.
  induction l as [|y l IH]; intros H; [reflexivity|].
  simpl in *. apply orb_false_iff in H. destruct H as (H1 & H2).
  rewrite str_eqb_sym, H1, (IH H2). reflexivity.
Qed.

(** C10. While the scan excludes, [`define], [`undef], [`resetall] and
    [`include] take their full effect: after [`define NAME] the name is
    defined (with the names defined before), after [`undef NAME] it is not
    (the others stay), after [`resetall] the table is empty, and an include
    whose file is found and read runs the nested activation on the file's
    text and the shared state and continues from the state that activation
    returns; none of them touches the regions or ends the exclusion.  And
    they run exactly as in active text: with [exclude] set to any [b] the
    iteration gives the result it gives otherwise, with [exclude] still
    [b]. *)
Theorem unconditional_directives_ignore_exclusion
        os incdirs rec content sh loc ms me :
  search_marker content (pos loc) = Some (ms, me, Backtick) ->
  exclude loc = true ->
  (forall name e,
      recognise content ms = Define name e ->
      exists sh' loc',
        step os incdirs rec content sh loc = Ok (sh', loc')
        /\ mem name (defines sh') = true
        /\ (forall x, mem x (defines sh')
                      = str_eqb x name || mem x (defines sh))
        /\ conditionals sh' = conditionals sh
        /\ exclude loc' = true /\ regions loc' = regions loc)
  /\ (forall name e,
        recognise content ms = Undef name e ->
        NoDup (defines sh) ->
        exists sh' loc',
          step os incdirs rec content sh loc = Ok (sh', loc')
          /\ mem name (defines sh') = false
          /\ defines sh' = remove_first name (defines sh)
          /\ (forall x, mem x (defines sh')
                        = negb (str_eqb x name) && mem x (defines sh))
          /\ conditionals sh' = conditionals sh
          /\ exclude loc' = true /\ regions loc' = regions loc)
  /\ (forall e,
        recognise content ms = Resetall e ->
        step os incdirs rec content sh loc
        = Ok (with_defines [] sh, with_pos e loc))
  /\ (forall path e h f c,
        recognise content ms = Include path e ->
        py_last (head sh) = Some h ->
        located os incdirs h path = Some f ->
        fs os f = Content c ->
        step os incdirs rec content sh loc =
        (s1 <- rec c (with_head (head sh ++ [os_path_split_0 os f]) sh) ;;
         match head s1 with
         | [] => IndexError
         | _ :: _ =>
             Ok (with_head (removelast (head s1)) s1, with_pos (e + 1) loc)
         end))
  /\ (unconditional (recognise content ms) = true ->
      forall b,
        step os incdirs rec content sh (with_exclude b loc) =
        fmap (fun r => (fst r, with_exclude b (snd r)))
             (step os incdirs rec content sh loc)).
Proof.
  intros M E.
  assert (St : step os incdirs rec content sh loc =
               exec os incdirs rec (recognise content ms) me sh loc).
  { unfold step. rewrite M. reflexivity. }
  split; [|split; [|split; [|split]]].
  - intros name e R. rewrite St, R. simpl.
    destruct (mem name (defines sh)) eqn:D; simpl;
      eexists; eexists; (split; [reflexivity|]); simpl.
    + repeat split; try assumption.
      intros x. destruct (str_eqb x name) eqn:X; [|reflexivity].
      apply str_eqb_eq in X. subst. simpl. exact D.
    + repeat split; try assumption.
      * rewrite mem_app, str_eqb_refl. apply orb_true_r.
      * intros x. rewrite mem_app. apply orb_comm.
  - intros name e R N. rewrite St, R. simpl.
    destruct (mem name (defines sh)) eqn:D; simpl;
      eexists; eexists; (split; [reflexivity|]); simpl.
    + repeat split; try assumption.
      * rewrite mem_remove_first by assumption.
        rewrite str_eqb_refl. reflexivity.
      * intros x. apply mem_remove_first. assumption.
    + repeat split; try assumption.
      * symmetry. apply remove_first_absent. exact D.
      * intros x. destruct (str_eqb x name) eqn:X; simpl; [|reflexivity].
        apply str_eqb_eq in X. subst. exact D.
  - intros e R. rewrite St, R. reflexivity.
  - intros path e h f c R P L F.
    rewrite St, R, (exec_include os incdirs rec path e me sh loc h P), L.
    unfold include_file. rewrite F.
    destruct (rec c (with_head (head sh ++ [os_path_split_0 os f]) sh))
      as [s1| | |]; simpl; try reflexivity.
    destruct (head s1); reflexivity.
  - intros U b. unfold step. simpl pos. rewrite M.
    destruct (recognise content ms) as
      [path e|name e|name e|e|name s e|s e|e|name s e|];
      simpl in U; try discriminate; simpl.
    + destruct (py_last (head sh)); [|reflexivity].
      match goal with
      | |- bind ?r _ = _ => destruct r; reflexivity
      end.
    + destruct (negb (mem name (defines sh))); reflexivity.
    + destruct (mem name (defines sh)); reflexivity.
    + reflexivity.
Qed.

Lemma unconditional_directives_ignore_exclusion_witness :
  exists sh' loc',
    step demo_os demo_incdirs no_rec
         (lit "`ifdef A `define B `endif `ifdef B x `endif ")
         (mkShared [] [Cond.mk false true] [lit "src"] [])
         (mkLocals 8 true 0 0 [])
    = Ok (sh', loc')
    /\ mem (lit "B") (defines sh') = true
    /\ (forall x, mem x (defines sh')
                  = str_eqb x (lit "B") || mem x [])
    /\ conditionals sh' = [Cond.mk false true]
    /\ exclude loc' = true /\ regions loc' = [].
Proof.
  apply (proj1 (unconditional_directives_ignore_exclusion
                  demo_os demo_incdirs no_rec
                  (lit "`ifdef A `define B `endif `ifdef B x `endif ")
                  (mkShared [] [Cond.mk false true] [lit "src"] [])
                  (mkLocals 8 true 0 0 []) 9 10 eq_refl eq_refl)
           (lit "B") 18).
  reflexivity.
Defined.

(** On a buffer: the [`define B] inside the block excluded by [`ifdef A]
    is executed, so the later [`ifdef B] excludes nothing; and an include
    inside excluded text defines [X] for the text after it. *)
Example define_in_excluded_text_takes_effect :
  run demo_os demo_incdirs 9 (lit "src")
      (lit "`ifdef A `define B `endif `ifdef B x `endif ")
  = Ok ([(0, 25)], mkShared [lit "B"] [] [lit "src"] [])
  /\ run demo_os demo_incdirs 9 (lit "src")
         (lit "`ifdef A `include " ++ quoted (lit "defs.vh")
          ++ lit " `endif `ifndef X y `endif ")
     = Ok ([(0, 34); (35, 53)], mkShared [lit "X"] [] [lit "src"] []).
Proof. split; reflexivity. Qed.
